(** * uparse: a shallow model of the parser combinators of [index.js]

    The library is a handful of JavaScript functions: each combinator
    returns a closure from a [ParseState] to either [null] or the
    two-element array [[value, nextState]].  The model keeps that shape:

    - JavaScript values that parsers return are the type [value];
    - [ParseState] is a record with the two fields of the source and its
      three methods [peek], [read] and [isComplete];
    - a closure returned by a combinator is a value of [Parser] holding the
      captured variables, and [invoke] runs the body of that closure;
    - the context object handed to [ref] is mutable and shared, so it lives
      in a [Store] and the closure keeps only the reference to it;
    - the [while] loop of [rep] and the recursion through [ref] need not
      terminate, hence [invoke] takes a step budget and answers
      [OutOfFuel] when it is spent. *)

Set Warnings "-register-all".
From Stdlib Require Import ZArith Lia Ascii.
From stdpp Require Import gmap strings list fin_maps.

Local Open Scope string_scope.
Local Open Scope Z_scope.

(** ** JavaScript values

    Strings are Rocq strings.  The library only takes the length of a
    string, slices it and compares it with [===], which read the same on
    any alphabet. *)

Inductive value : Type :=
| VNull
| VUndefined
| VBool (b : bool)
| VNum (z : Z)
| VStr (s : string)
| VArr (items : list value)
| VObj (fields : list (string * value)).

(** [function id (val) { return val }] *)
Definition id (val : value) : value := val.

(** The object literals of the source: [{ str: chunk }], [{ seq: matches }]
    and so on are objects with a single field. *)
Definition tagged (tag : string) (v : value) : value := VObj [(tag, v)].

(** ** Outcomes of a call

    What is thrown: the two errors of the host that the library can run
    into, and [Thrown v] for a [throw v] of a formatter or a host function.
    [NotAResult] is no JavaScript error: it marks a call that returned a
    truthy value which is no pair [[value, state]]; the model has no
    states for what the library would make of such a value and stops
    there (only the members of [Object.prototype] below do this). *)

Inductive Error : Type :=
| TypeError
| SyntaxError
| Thrown (v : value)
| NotAResult.

Inductive Result (A : Type) : Type :=
| OutOfFuel
| Throw (e : Error)
| Return (a : A).

Arguments OutOfFuel {A}.
Arguments Throw {A} e.
Arguments Return {A} a.

(** Sequencing: a statement that ran out of fuel or threw ends the
    enclosing function with the same outcome. *)
#[global] Instance Result_bind : MBind Result := fun A B k m =>
  match m with
  | OutOfFuel => OutOfFuel
  | Throw e => Throw e
  | Return a => k a
  end.

(** The optional formatter of a combinator is a JavaScript function of the
    user: called on a value it returns a value, or throws, or does not
    come back. *)
Definition formatter : Type := value -> Result value.

(** ** String.prototype.slice and the private state container *)

Definition str_length (s : string) : Z := Z.of_nat (String.length s).

(** An index of [slice]: negative indices count from the end, and every
    index is clamped to the string. *)
Definition slice_index (len i : Z) : Z :=
  if i <? 0 then Z.max (len + i) 0 else Z.min i len.

Definition slice (s : string) (start finish : Z) : string :=
  let len := str_length s in
  let from := slice_index len start in
  let to := slice_index len finish in
  String.substring (Z.to_nat from) (Z.to_nat (Z.max (to - from) 0)) s.

Record ParseState : Type := mkParseState {
  string_ : string;
  offset : Z
}.

Definition peek (this : ParseState) (n : Z) : string :=
  slice (string_ this) (offset this) (offset this + n).

Definition read (this : ParseState) (n : Z) : ParseState :=
  mkParseState (string_ this) (offset this + n).

Definition isComplete (this : ParseState) : bool :=
  offset this =? str_length (string_ this).

(** ** Parsers

    What a parser returns: [None] is JavaScript's [null], [Some (v, st)] is
    the array [[v, st]]. *)
Definition Parsed : Type := option (value * ParseState).

(** References to context objects. *)
Definition loc : Type := positive.

(** Parser values.  [PStr] to [PRef] are the closures returned by the seven
    combinators, with the variables each closure captures.  [PHost] is a
    parser written by the user of the library: the constructor of
    [ParseState] is private to the module, so such a function obtains
    states only from the state it is given, through [read]; it answers
    [null] (or another falsy value, which the library treats alike) or a
    value together with the amount passed to [read], or it throws, or it
    does not come back. *)
Inductive Parser : Type :=
| PHost (g : ParseState -> Result (option (value * Z)))
| PStr (string : string) (f : formatter)
| PChar (chars : string) (f : formatter)
| PSeq (parsers : list Parser) (f : formatter)
| PRep (parser : Parser) (n : Z) (f : formatter)
| POpt (parser : Parser) (f : formatter)
| PAlt (parsers : list Parser) (f : formatter)
| PRef (ctx : loc) (name : string).

(** The heap of context objects: [h !! ctx] holds the entries that the
    author of the grammar has bound on the object, and [get_prop] looks a
    name up among them.  What the property access [ctx[name]] finds for a
    name that is not among them is [inherited], below. *)
Abbreviation Store := (gmap loc (gmap string Parser)).

Definition get_prop (h : Store) (ctx : loc) (name : string)
    : option Parser :=
  h !! ctx ≫= (fun obj => obj !! name).

(** The assignment [ctx[name] = q]. *)
Definition set_prop (h : Store) (ctx : loc) (name : string) (q : Parser)
    : Store :=
  <[ctx := <[name := q]> (default ∅ (h !! ctx))]> h.

(** The key under which a state is looked up as a property name:
    [String(parseState)]. *)
Definition state_key : string := "[object Object]".

(** What the members of [Object.prototype] do when they are called on a
    state, with the context object as [this]. *)
Inductive Member : Type :=
| TestsOwnKey     (* true when [state_key] is an own entry, else false *)
| ReturnsFalsy    (* false or undefined *)
| ThrowsTypeError (* not a function, or a TypeError of its own *)
| ReturnsOther.   (* a string or an object *)

Definition Object_prototype (name : string) : option Member :=
  if existsb (String.eqb name) ["hasOwnProperty"; "propertyIsEnumerable"]
  then Some TestsOwnKey
  else if existsb (String.eqb name)
            ["isPrototypeOf"; "__lookupGetter__"; "__lookupSetter__"]
  then Some ReturnsFalsy
  else if existsb (String.eqb name)
            ["__proto__"; "__defineGetter__"; "__defineSetter__"]
  then Some ThrowsTypeError
  else if existsb (String.eqb name)
            ["toString"; "toLocaleString"; "valueOf"; "constructor"]
  then Some ReturnsOther
  else None.

(** The call [ctx[name](parseState)] for a name that the context object
    does not bind itself.  A context object is a plain object, as the
    object literals of the tests and the README are, and inherits from
    [Object.prototype]: the name may be one of its members.  A falsy
    return is [null] to every caller.  For any other name [ctx[name]] is
    [undefined], and calling it throws a [TypeError], as does any property
    access when [ctx] itself is no object. *)
Definition inherited (h : Store) (ctx : loc) (name : string)
    : Result Parsed :=
  match h !! ctx with
  | None => Throw TypeError
  | Some obj =>
      match Object_prototype name with
      | Some TestsOwnKey =>
          if bool_decide (is_Some (obj !! state_key))
          then Throw NotAResult
          else Return None
      | Some ReturnsFalsy => Return None
      | Some ThrowsTypeError => Throw TypeError
      | Some ReturnsOther => Throw NotAResult
      | None => Throw TypeError
      end
  end.

(** [f = f || id]: a missing formatter is [undefined], which is falsy. *)
Definition or_id (f : option formatter) : formatter :=
  default (fun val => Return (id val)) f.

(** The array [[f(x), st]] of a success: [f] is called first, and what it
    throws leaves the parser. *)
Definition formatted (f : formatter) (x : value) (st : ParseState)
    : Result Parsed :=
  v ← f x; Return (Some (v, st)).

Definition str (string : string) (f : option formatter) : Parser :=
  PStr string (or_id f).
Definition char (chars : string) (f : option formatter) : Parser :=
  PChar chars (or_id f).
Definition seq (parsers : list Parser) (f : option formatter) : Parser :=
  PSeq parsers (or_id f).
Definition rep (parser : Parser) (n : Z) (f : option formatter) : Parser :=
  PRep parser n (or_id f).
Definition opt (parser : Parser) (f : option formatter) : Parser :=
  POpt parser (or_id f).
Definition alt (parsers : list Parser) (f : option formatter) : Parser :=
  PAlt parsers (or_id f).
Definition ref (ctx : loc) (name : string) : Parser :=
  PRef ctx name.

(** The accumulator of the [reduce] in [seq]. *)
Record SeqAcc : Type := mkSeqAcc {
  success : bool;
  state : ParseState;
  matches : list value
}.

(** [Array.prototype.reduce] with a callback that may throw or diverge. *)
Fixpoint reduce {A B : Type} (callback : A -> B -> Result A)
    (arr : list B) (acc : A) : Result A :=
  match arr with
  | [] => Return acc
  | x :: rest => acc' ← callback acc x; reduce callback rest acc'
  end.

Section Bodies.

(** How a parser value is called. *)
Variable call : Parser -> ParseState -> Result Parsed.

(** The callback of the [reduce] in [seq]. *)
Definition seq_step (acc : SeqAcc) (parser : Parser) : Result SeqAcc :=
  if negb (success acc) then Return acc
  else
    parsed ← call parser (state acc);
    match parsed with
    | Some (v, st) => Return (mkSeqAcc (success acc) st (matches acc ++ [v]))
    | None => Return (mkSeqAcc false (state acc) (matches acc))
    end.

(** The [while] loop of [rep].  [parseState] is the loop variable while
    it is not [null]; each iteration first copies it to [lastState].
    A failing call sets [parseState] to [null], which ends the loop, so
    the loop leaves [lastState] at the state of the failing call.  The
    result is the pair of [matches] and [lastState]. *)
Fixpoint rep_while (fuel : nat) (parser : Parser) (parseState : ParseState)
    (matches : list value) : Result (list value * ParseState) :=
  match fuel with
  | O => OutOfFuel
  | S k =>
      let lastState := parseState in
      parsed ← call parser parseState;
      match parsed with
      | Some (v, st) => rep_while k parser st (matches ++ [v])
      | None => Return (matches, lastState)
      end
  end.

(** The [for] loop of [alt] over [parsers[i]], [i = 0 .. len - 1]. *)
Fixpoint alt_for (parsers : list Parser) (f : formatter)
    (parseState : ParseState) : Result Parsed :=
  match parsers with
  | [] => Return None
  | parser :: rest =>
      result ← call parser parseState;
      match result with
      | Some (v, st) => formatted f (tagged "alt" v) st
      | None => alt_for rest f parseState
      end
  end.

End Bodies.

(** The regular expressions are the host's, not the library's, and the
    model takes them as given: [RegExp source] is [new RegExp(source)],
    which throws a [SyntaxError] ([None]) or is a regular expression, and
    a regular expression is known by its method [test]. *)
Class Host : Type := {
  RegExp : string -> option (string -> bool)
}.

Section Engine.

Context {host : Host}.

(** Calling a parser value on a state: the body of the closure. *)
Fixpoint invoke (fuel : nat) (h : Store) (p : Parser)
    (parseState : ParseState) : Result Parsed :=
  match fuel with
  | O => OutOfFuel
  | S k =>
      match p with
      | PHost g =>
          r ← g parseState;
          Return (match r with
                  | Some (v, n) => Some (v, read parseState n)
                  | None => None
                  end)
      | PStr string f =>
          let chunk := peek parseState (str_length string) in
          if String.eqb chunk string
          then formatted f (tagged "str" (VStr chunk))
                 (read parseState (str_length string))
          else Return None
      | PChar chars f =>
          let chunk := peek parseState 1 in
          match RegExp ("[" +:+ chars +:+ "]") with
          | None => Throw SyntaxError
          | Some regex =>
              if regex chunk
              then formatted f (tagged "char" (VStr chunk))
                     (read parseState 1)
              else Return None
          end
      | PSeq parsers f =>
          result ← reduce (seq_step (invoke k h)) parsers
                     (mkSeqAcc true parseState []);
          if success result
          then formatted f (tagged "seq" (VArr (matches result)))
                 (state result)
          else Return None
      | PRep parser n f =>
          r ← rep_while (invoke k h) k parser parseState [];
          let '(matches, lastState) := r in
          if Z.of_nat (length matches) >=? n
          then formatted f (tagged "rep" (VArr matches)) lastState
          else Return None
      | POpt parser f =>
          parsed ← invoke k h parser parseState;
          match parsed with
          | Some (v, st) => formatted f (tagged "opt" v) st
          | None => formatted f (tagged "opt" VNull) parseState
          end
      | PAlt parsers f =>
          alt_for (invoke k h) parsers f parseState
      | PRef ctx name =>
          match get_prop h ctx name with
          | Some q => invoke k h q parseState
          | None => inherited h ctx name
          end
      end
  end.

(** [parse (parser, string)].  An array is truthy and [null] is falsy, so
    [result && result[1].isComplete()] holds exactly for an array whose
    state is complete. *)
Definition parse (fuel : nat) (h : Store) (parser : Parser)
    (string : string) : Result value :=
  result ← invoke fuel h parser (mkParseState string 0);
  Return (match result with
          | Some (v, st) => if isComplete st then v else VNull
          | None => VNull
          end).

End Engine.

(** ** A character-class matcher for running examples

    [class_test] decides [new RegExp(source).test(chunk)] for the sources
    that [char] builds from a class made of single characters and ranges
    [a-b] (no backslash, no caret in front, no closing bracket inside): the
    chunk matches when one of its characters is in the class. *)

Fixpoint class_member (items : list ascii) (c : ascii) : bool :=
  match items with
  | lo :: "-"%char :: hi :: rest =>
      ((Ascii.nat_of_ascii lo <=? Ascii.nat_of_ascii c)%nat
       && (Ascii.nat_of_ascii c <=? Ascii.nat_of_ascii hi)%nat)
      || class_member rest c
  | x :: rest => Ascii.eqb x c || class_member rest c
  | [] => false
  end.

Definition class_test (source chunk : string) : bool :=
  let items := String.list_ascii_of_string source in
  let inner := removelast (tail items) in
  existsb (class_member inner) (String.list_ascii_of_string chunk).

Definition class_host : Host :=
  {| RegExp source := Some (class_test source) |}.

(** The grammar of the README: [0], or a digit [1-9] followed by digits. *)
Definition number_grammar : Parser :=
  alt [str "0" None;
       seq [char "1-9" None; rep (char "0-9" None) 0 None] None] None.

(** A host parser that skips one character whatever it is, also past the
    end of the string: [function (st) { return [null, st.read(1)] }]. *)
Definition skip_one : Parser := PHost (fun _ => Return (Some (VNull, 1))).

(** ** Notions the properties are stated with *)

(** [returns h p c r]: the call [p(c)] in store [h] comes back
    with [r] ([None] for [null]). *)
Definition returns {host : Host} (h : Store)
    (p : Parser) (c : ParseState) (r : Parsed) : Prop :=
  exists k, invoke k h p c = Return r.

(** [terminates h p c]: the call [p(c)] ends, by returning or
    by throwing. *)
Definition terminates {host : Host} (h : Store)
    (p : Parser) (c : ParseState) : Prop :=
  exists k, invoke k h p c <> OutOfFuel.

(** The maximal greedy run of [p] from [c]: the results [vs] of the
    successive successful calls, each made at the state the previous one
    left, up to the state [c'] at which [p] fails. *)
Inductive greedy_run {host : Host} (h : Store)
    (p : Parser) : ParseState -> list value -> ParseState -> Prop :=
| greedy_stop c :
    returns h p c None ->
    greedy_run h p c [] c
| greedy_more c v c1 vs c' :
    returns h p c (Some (v, c1)) ->
    greedy_run h p c1 vs c' ->
    greedy_run h p c (v :: vs) c'.

(** What [rep(p, n)] does after the greedy run [vs] ending at [c']. *)
Definition rep_answer (n : Z) (f : option formatter) (vs : list value)
    (c' : ParseState) : Result Parsed :=
  if Z.of_nat (length vs) >=? n
  then formatted (or_id f) (tagged "rep" (VArr vs)) c'
  else Return None.

(** [child h p q]: calling [p] may call [q], either a parser [p] was built
    from or the entry a reference finds in the store. *)
Inductive child (h : Store) : Parser -> Parser -> Prop :=
| child_seq parsers f q : In q parsers -> child h (PSeq parsers f) q
| child_rep q n f : child h (PRep q n f) q
| child_opt q f : child h (POpt q f) q
| child_alt parsers f q : In q parsers -> child h (PAlt parsers f) q
| child_ref ctx name q :
    get_prop h ctx name = Some q -> child h (PRef ctx name) q.

Definition reachable (h : Store) : Parser -> Parser -> Prop := rtc (child h).

Definition is_host (p : Parser) : bool :=
  match p with
  | PHost _ => true
  | _ => false
  end.

(** [p] is built from the seven combinators alone, and so is every
    registry entry that it can reach through references. *)
Definition built (h : Store) (p : Parser) : Prop :=
  forall q, reachable h p q -> is_host q = false.

(** A check that implies [built]: no host parser inside [p] ... *)
Fixpoint host_free (p : Parser) : bool :=
  match p with
  | PHost _ => false
  | PStr _ _ | PChar _ _ | PRef _ _ => true
  | PSeq parsers _ | PAlt parsers _ => forallb host_free parsers
  | PRep parser _ _ | POpt parser _ => host_free parser
  end.

(** ... and none in any entry of any context object. *)
Definition store_host_free (h : Store) : Prop :=
  forall ctx name q, get_prop h ctx name = Some q -> host_free q = true.

(** The effect of a formatter on an outcome: [f] is called on the value
    of a success, and on nothing else. *)
Definition map_value (f : formatter) (r : Result Parsed) : Result Parsed :=
  match r with
  | Return (Some (v, st)) => formatted f v st
  | other => other
  end.

(** The formatter returns on every value. *)
Definition always_returns (f : option formatter) : Prop :=
  forall x, exists w, or_id f x = Return w.

(** The formatter ends on every value, by returning or by throwing. *)
Definition always_ends (f : option formatter) : Prop :=
  forall x, or_id f x <> OutOfFuel.

(** The property access [v[name]] on a value, for a name that is no index
    and no built-in property: a field of an object, [undefined] on
    anything else that has properties, a [TypeError] on [null] and
    [undefined]. *)
Definition prop (v : value) (name : string) : Result value :=
  match v with
  | VNull | VUndefined => Throw TypeError
  | VObj fields =>
      Return (default VUndefined
                (snd <$> find (fun kv => String.eqb (fst kv) name) fields))
  | _ => Return VUndefined
  end.

(** The formatter of the test of [opt]:
    [function (v) { return '#' + v.opt && v.opt.str }].  The string
    ['#' + v.opt] is never empty, so the value is [v.opt.str]. *)
Definition maybeplus_format : formatter := fun v =>
  o ← prop v "opt"; prop o "str".

(** The offset of the state is not past the end of its string. *)
Definition in_bounds (c : ParseState) : Prop :=
  offset c <= str_length (string_ c).

(** [seq_run h ps c vs c']: the parsers [ps] succeed one after the other,
    the first at [c] and each next one at the state its predecessor
    returned, with the values [vs], the last one returning [c']. *)
Inductive seq_run {host : Host} (h : Store)
    : list Parser -> ParseState -> list value -> ParseState -> Prop :=
| seq_run_nil c : seq_run h [] c [] c
| seq_run_cons p ps c v c1 vs c' :
    returns h p c (Some (v, c1)) ->
    seq_run h ps c1 vs c' ->
    seq_run h (p :: ps) c (v :: vs) c'.

(** The parsers made of [str], [char], [seq], [opt] and [alt] only: no
    loop, no reference, no host function. *)
Fixpoint loop_free (p : Parser) : bool :=
  match p with
  | PHost _ | PRep _ _ _ | PRef _ _ => false
  | PStr _ _ | PChar _ _ => true
  | PSeq parsers _ | PAlt parsers _ => forallb loop_free parsers
  | POpt parser _ => loop_free parser
  end.

(** The nesting depth of a parser: the number of nested calls that
    calling it takes at most. *)
Fixpoint height (p : Parser) : nat :=
  match p with
  | PHost _ | PStr _ _ | PChar _ _ | PRef _ _ => 1
  | PSeq parsers _ | PAlt parsers _ => S (list_max (map height parsers))
  | PRep parser _ _ | POpt parser _ => S (height parser)
  end.

(** The regular expression that [char(chars)] builds does not accept the
    empty chunk, as a proper character class does not. *)
Definition class_needs_a_character {host : Host} (chars : string) : Prop :=
  forall regex,
    RegExp ("[" +:+ chars +:+ "]") = Some regex -> regex "" = false.

(** The same for every [char] that calling [p] may call. *)
Definition reachable_classes_need_a_character {host : Host} (h : Store)
    (p : Parser) : Prop :=
  forall chars f,
    reachable h p (PChar chars f) -> class_needs_a_character chars.

(** Every formatter in the parser returns on every value. *)
Inductive formatters_return : Parser -> Prop :=
| fr_host g : formatters_return (PHost g)
| fr_str s f :
    (forall x, exists w, f x = Return w) -> formatters_return (PStr s f)
| fr_char chars f :
    (forall x, exists w, f x = Return w) -> formatters_return (PChar chars f)
| fr_seq ps f :
    (forall x, exists w, f x = Return w) ->
    Forall formatters_return ps -> formatters_return (PSeq ps f)
| fr_rep q n f :
    (forall x, exists w, f x = Return w) ->
    formatters_return q -> formatters_return (PRep q n f)
| fr_opt q f :
    (forall x, exists w, f x = Return w) ->
    formatters_return q -> formatters_return (POpt q f)
| fr_alt ps f :
    (forall x, exists w, f x = Return w) ->
    Forall formatters_return ps -> formatters_return (PAlt ps f)
| fr_ref ctx name : formatters_return (PRef ctx name).


(** The call came back, or threw the [SyntaxError] of a bad class. *)
Definition settles {A : Type} (r : Result A) : Prop :=
  r = Throw SyntaxError \/ exists a, r = Return a.

(** The parsers that consume input themselves or are host functions. *)
Definition is_leaf (p : Parser) : bool :=
  match p with
  | PHost _ | PStr _ _ | PChar _ _ => true
  | _ => false
  end.


(** ** Orders on outcomes *)

(** [res_le r1 r2]: [r2] is the answer [r1], or [r1] ran out of fuel. *)
Definition res_le {A : Type} (r1 r2 : Result A) : Prop :=
  r1 = OutOfFuel \/ r1 = r2.

(** The same for two ways of calling parsers. *)
Definition call_le (c1 c2 : Parser -> ParseState -> Result Parsed) : Prop :=
  forall p st, res_le (c1 p st) (c2 p st).

(** [call_respects ok R call]: a success of [call] on a parser satisfying
    [ok] relates the state given to the state returned by [R]. *)
Definition call_respects (ok : Parser -> Prop)
    (R : ParseState -> ParseState -> Prop)
    (call : Parser -> ParseState -> Result Parsed) : Prop :=
  forall p c v c', ok p -> call p c = Return (Some (v, c')) -> R c c'.

(** An inherited member never gives a success. *)
Lemma inherited_no_success h ctx name v c' :
  inherited h ctx name <> Return (Some (v, c')).
Proof.
  unfold inherited. destruct (h !! ctx) as [obj|]; [|done].
  destruct (Object_prototype name) as [[]|]; try done.
  by destruct (bool_decide _).
Qed.

(** ** More fuel never changes an answer *)

Lemma bind_Return {A B : Type} (a : A) (k : A -> Result B) :
  Return a ≫= k = k a.
Proof. reflexivity. Qed.

Lemma bind_ret {A : Type} (m : Result A) : m ≫= Return = m.
Proof. by destruct m. Qed.

(** A success is the value the formatter returned, with the state. *)
Lemma formatted_returns f x st v c' :
  formatted f x st = Return (Some (v, c')) <-> f x = Return v /\ c' = st.
Proof.
  unfold formatted. destruct (f x) as [| |w]; simpl; split; try done.
  - by intros [? ?].
  - by intros [? ?].
  - by intros [= -> ->].
  - by intros [[= ->] ->].
Qed.

Lemma formatted_not_null f x st : formatted f x st <> Return None.
Proof. unfold formatted. by destruct (f x). Qed.

Lemma formatted_Return f x st w :
  f x = Return w -> formatted f x st = Return (Some (w, st)).
Proof. unfold formatted. by intros ->. Qed.

Lemma formatted_id x st :
  formatted (or_id None) x st = Return (Some (x, st)).
Proof. reflexivity. Qed.

(** Formatters that return: no formatter at all is one, and so is every
    function that computes its value.  Such a formatter ends and does not
    throw, and the pair [[f(x), st]] is a success. *)
Lemma no_formatter_returns : always_returns None.
Proof. intros x. by exists x. Qed.

Lemma returning_formatter_returns (g : value -> value) :
  always_returns (Some (fun x => Return (g x))).
Proof. intros x. by exists (g x). Qed.

Lemma always_returns_ends f : always_returns f -> always_ends f.
Proof. intros Hf x. destruct (Hf x) as [w ->]. done. Qed.

Lemma always_returns_no_throw f :
  always_returns f -> forall x e, or_id f x <> Throw e.
Proof. intros Hf x e. destruct (Hf x) as [w ->]. done. Qed.

Lemma formatted_total (g : value -> value) x st :
  formatted (or_id (Some (fun y => Return (g y)))) x st
  = Return (Some (g x, st)).
Proof. reflexivity. Qed.

Lemma res_le_refl {A : Type} (r : Result A) : res_le r r.
Proof. by right. Qed.

Lemma res_le_done {A : Type} (r1 r2 : Result A) :
  res_le r1 r2 -> r1 <> OutOfFuel -> r2 = r1.
Proof. intros [->| ->]; congruence. Qed.

Lemma res_le_bind {A B : Type} (m1 m2 : Result A) (k1 k2 : A -> Result B) :
  res_le m1 m2 -> (forall a, res_le (k1 a) (k2 a)) ->
  res_le (m1 ≫= k1) (m2 ≫= k2).
Proof.
  intros [->| ->] Hk; [by left|].
  destruct m2; simpl; [by left|by right|apply Hk].
Qed.

Lemma reduce_le {A B : Type} (cb1 cb2 : A -> B -> Result A) (arr : list B) :
  (forall acc x, res_le (cb1 acc x) (cb2 acc x)) ->
  forall acc, res_le (reduce cb1 arr acc) (reduce cb2 arr acc).
Proof.
  intros Hcb. induction arr as [|x rest IH]; intros acc; simpl.
  - apply res_le_refl.
  - apply res_le_bind; auto.
Qed.

Lemma seq_step_le c1 c2 acc parser :
  call_le c1 c2 -> res_le (seq_step c1 acc parser) (seq_step c2 acc parser).
Proof.
  intros Hc. unfold seq_step. destruct (negb (success acc)).
  - apply res_le_refl.
  - apply res_le_bind; [apply Hc|]. intros a. apply res_le_refl.
Qed.

Lemma rep_while_le c1 c2 k1 k2 parser :
  call_le c1 c2 -> (k1 <= k2)%nat ->
  forall st ms,
    res_le (rep_while c1 k1 parser st ms) (rep_while c2 k2 parser st ms).
Proof.
  intros Hc. revert k2. induction k1 as [|k1 IH]; intros k2 Hk st ms.
  - by left.
  - destruct k2 as [|k2]; [lia|]. simpl.
    apply res_le_bind; [apply Hc|].
    intros [[v st']|]; [|apply res_le_refl].
    apply IH. lia.
Qed.

Lemma alt_for_le c1 c2 parsers f st :
  call_le c1 c2 -> res_le (alt_for c1 parsers f st) (alt_for c2 parsers f st).
Proof.
  intros Hc. induction parsers as [|q rest IH]; simpl.
  - apply res_le_refl.
  - apply res_le_bind; [apply Hc|].
    intros [[v st']|]; [apply res_le_refl|apply IH].
Qed.

Section Fuel.

Context {host : Host}.

Lemma invoke_le h k1 k2 :
  (k1 <= k2)%nat ->
  call_le (invoke k1 h) (invoke k2 h).
Proof.
  revert k2. induction k1 as [|k1 IH]; intros k2 Hk p st.
  - by left.
  - destruct k2 as [|k2]; [lia|].
    assert (Hle : call_le (invoke k1 h) (invoke k2 h))
      by (apply IH; lia).
    destruct p; simpl.
    + apply res_le_refl.
    + apply res_le_refl.
    + apply res_le_refl.
    + apply res_le_bind; [|intros a; apply res_le_refl].
      apply reduce_le. intros acc x. by apply seq_step_le.
    + apply res_le_bind; [|intros a; apply res_le_refl].
      apply rep_while_le; [done|lia].
    + apply res_le_bind; [apply Hle|intros a; apply res_le_refl].
    + by apply alt_for_le.
    + destruct (get_prop h ctx name); [apply Hle|apply res_le_refl].
Qed.

(** An answer obtained with some fuel is the answer with any more fuel. *)
Lemma invoke_mono h k1 k2 p st r :
  (k1 <= k2)%nat -> invoke k1 h p st = r -> r <> OutOfFuel ->
  invoke k2 h p st = r.
Proof.
  intros Hk <- Hr. by apply res_le_done; [apply invoke_le|].
Qed.

(** Two runs that both answer give the same answer. *)
Lemma invoke_det h k1 k2 p st r1 r2 :
  invoke k1 h p st = r1 -> r1 <> OutOfFuel ->
  invoke k2 h p st = r2 -> r2 <> OutOfFuel ->
  r1 = r2.
Proof.
  intros H1 Hr1 H2 Hr2.
  pose proof (invoke_mono h k1 (Nat.max k1 k2) p st r1 ltac:(lia) H1 Hr1).
  pose proof (invoke_mono h k2 (Nat.max k1 k2) p st r2 ltac:(lia) H2 Hr2).
  congruence.
Qed.

End Fuel.

(** ** Relations between the state given and the state returned *)

Section Respect.

Context {host : Host}.
Variable h : Store.

(** [R c c'] relates the state a parser is called on to the state it
    returns; [ok] is a property of parsers that their children inherit. *)
Variable R : ParseState -> ParseState -> Prop.
Variable ok : Parser -> Prop.

Hypothesis R_refl : forall c, R c c.
Hypothesis R_trans : forall c1 c2 c3, R c1 c2 -> R c2 c3 -> R c1 c3.
Hypothesis R_read : forall c n, 0 <= n -> R c (read c n).
Hypothesis ok_child : forall p q, ok p -> child h p q -> ok q.
Hypothesis ok_host : forall g c v n,
  ok (PHost g) -> g c = Return (Some (v, n)) -> R c (read c n).

Lemma seq_step_respects call acc q acc' :
  call_respects ok R call -> ok q ->
  seq_step call acc q = Return acc' -> R (state acc) (state acc').
Proof.
  intros Hcall Hq. unfold seq_step. destruct (negb (success acc)); simpl.
  - intros [= <-]. apply R_refl.
  - destruct (call q (state acc)) as [| |[[v st]|]] eqn:Hc; simpl; try done.
    + intros [= <-]. simpl. eapply Hcall; eauto.
    + intros [= <-]. apply R_refl.
Qed.

Lemma reduce_seq_respects call parsers :
  call_respects ok R call -> Forall ok parsers ->
  forall acc res,
    reduce (seq_step call) parsers acc = Return res ->
    R (state acc) (state res).
Proof.
  intros Hcall Hok. induction Hok as [|q rest Hq _ IH]; intros acc res; simpl.
  - intros [= <-]. apply R_refl.
  - destruct (seq_step call acc q) as [| |acc'] eqn:Hstep; simpl; try done.
    intros Hres. apply IH in Hres.
    eapply R_trans; [|exact Hres]. eapply seq_step_respects; eauto.
Qed.

Lemma rep_while_respects call k parser :
  call_respects ok R call -> ok parser ->
  forall c ms ms' c',
    rep_while call k parser c ms = Return (ms', c') -> R c c'.
Proof.
  intros Hcall Hok. induction k as [|k IH]; intros c ms ms' c'; simpl; [done|].
  destruct (call parser c) as [| |[[v st]|]] eqn:Hc; simpl; try done.
  - intros Hres. apply IH in Hres.
    eapply R_trans; [|exact Hres]. eapply Hcall; eauto.
  - intros [= _ <-]. apply R_refl.
Qed.

Lemma alt_for_respects call parsers f c v c' :
  call_respects ok R call -> Forall ok parsers ->
  alt_for call parsers f c = Return (Some (v, c')) -> R c c'.
Proof.
  intros Hcall Hok. induction Hok as [|q rest Hq _ IH]; simpl; [done|].
  destruct (call q c) as [| |[[w st]|]] eqn:Hc; simpl; try done.
  intros [_ ->]%formatted_returns. eapply Hcall; eauto.
Qed.

Lemma ok_children parsers f :
  ok (PSeq parsers f) \/ ok (PAlt parsers f) -> Forall ok parsers.
Proof.
  intros Hp. apply Forall_forall. intros q Hq.
  apply list_elem_of_In in Hq.
  destruct Hp as [Hp|Hp]; eapply ok_child; eauto using child.
Qed.

Lemma str_length_nonneg s : 0 <= str_length s.
Proof. unfold str_length. lia. Qed.

Lemma invoke_respects k :
  call_respects ok R (invoke k h).
Proof.
  induction k as [|k IH]; intros p c v c' Hok; simpl; [done|].
  destruct p.
  - destruct (g c) as [| |[[w n]|]] eqn:Hg; simpl; try done.
    intros [= _ <-]. eapply ok_host; eauto.
  - destruct (String.eqb _ _); [|done].
    intros [_ ->]%formatted_returns. apply R_read, str_length_nonneg.
  - destruct (RegExp _) as [regex|]; [|done].
    destruct (regex _); [|done].
    intros [_ ->]%formatted_returns. by apply R_read.
  - destruct (reduce _ _ _) as [| |res] eqn:Hred; simpl; try done.
    destruct (success res); [|done]. intros [_ ->]%formatted_returns.
    eapply reduce_seq_respects in Hred; [exact Hred|exact IH|].
    eapply ok_children; eauto.
  - destruct (rep_while _ _ _ _ _) as [| |[ms st]] eqn:Hrep; simpl; try done.
    destruct (_ >=? _); [|done]. intros [_ ->]%formatted_returns.
    eapply rep_while_respects in Hrep; [exact Hrep|exact IH|].
    eapply ok_child; [exact Hok|constructor].
  - destruct (invoke _ _ _ _) as [| |[[w st]|]] eqn:Hc; simpl; try done.
    + intros [_ ->]%formatted_returns. eapply IH; [|exact Hc].
      eapply ok_child; [exact Hok|constructor].
    + intros [_ ->]%formatted_returns. apply R_refl.
  - intros Halt. eapply alt_for_respects in Halt; [exact Halt|exact IH|].
    eapply ok_children; eauto.
  - destruct (get_prop h ctx name) as [q|] eqn:Hget.
    + intros Hq. eapply IH; [|exact Hq].
      eapply ok_child; [exact Hok|by constructor].
    + intros Hin. by apply inherited_no_success in Hin.
Qed.

End Respect.

(** ** Reachability and the combinator-built parsers *)

Lemma built_child h p q : built h p -> child h p q -> built h q.
Proof.
  intros Hp Hpq r Hqr. apply Hp. eapply rtc_l; eauto.
Qed.

Lemma built_not_host h g : ~ built h (PHost g).
Proof.
  intros Hb. specialize (Hb (PHost g) (rtc_refl _ _)). discriminate.
Qed.

Lemma host_free_child h p q :
  store_host_free h -> host_free p = true -> child h p q -> host_free q = true.
Proof.
  intros Hh Hp Hc. destruct Hc; simpl in Hp; try done.
  - rewrite forallb_forall in Hp. by apply Hp.
  - rewrite forallb_forall in Hp. by apply Hp.
  - eapply Hh; eauto.
Qed.

Lemma host_free_built h p :
  store_host_free h -> host_free p = true -> built h p.
Proof.
  intros Hh Hp q Hq. induction Hq as [p|p r q Hpr _ IH].
  - by destruct p.
  - apply IH. eapply host_free_child; eauto.
Qed.

Lemma get_prop_set_prop h ctx name q :
  get_prop (set_prop h ctx name q) ctx name = Some q.
Proof.
  unfold get_prop, set_prop. rewrite lookup_insert_eq. simpl.
  by rewrite lookup_insert_eq.
Qed.

Section Cursor.

Context {host : Host}.

(** Every parser leaves the string of the state alone: new states are
    only made by [read]. *)
Lemma invoke_string k h p c v c' :
  invoke k h p c = Return (Some (v, c')) ->
  string_ c' = string_ c.
Proof.
  intros Hrun.
  apply (invoke_respects h
           (fun c c' => string_ c' = string_ c) (fun _ => True))
    with (k := k) (p := p) (v := v); auto.
  intros c1 c2 c3 H12 H23. congruence.
Qed.

(** Combinator-built parsers never move the offset backwards. *)
Lemma invoke_offset k h p c v c' :
  built h p ->
  invoke k h p c = Return (Some (v, c')) ->
  offset c <= offset c'.
Proof.
  intros Hb Hrun.
  apply (invoke_respects h
           (fun c c' => offset c <= offset c') (built h))
    with (k := k) (p := p) (v := v); auto.
  - intros c1. lia.
  - intros c1 c2 c3 H12 H23. lia.
  - intros c1 n Hn. simpl. lia.
  - apply built_child.
  - intros g c1 w n Hg. by apply built_not_host in Hg.
Qed.

End Cursor.

(** ** The properties of the specification *)

Section Claims.

Context {host : Host}.

(** C1.  [parse(p, s)] calls [p] on the fresh state at offset 0.  When
    [p] succeeds with a state whose offset is the length of [s], the
    answer is [p]'s (formatted) value; when [p] fails, or succeeds with a
    state whose offset is before (or anywhere but at) the end of [s], the
    answer is [null].  Conversely an answer other than [null] only comes
    from a success of [p] at the end of [s]. *)
Theorem C1_parse_accepts_only_complete_matches fuel h p s :
  let c0 := mkParseState s 0 in
  (forall v c', invoke fuel h p c0 = Return (Some (v, c')) ->
     offset c' = str_length s -> parse fuel h p s = Return v)
  /\ (invoke fuel h p c0 = Return None ->
        parse fuel h p s = Return VNull)
  /\ (forall v c', invoke fuel h p c0 = Return (Some (v, c')) ->
        offset c' < str_length s -> parse fuel h p s = Return VNull)
  /\ (forall v c', invoke fuel h p c0 = Return (Some (v, c')) ->
        offset c' <> str_length s -> parse fuel h p s = Return VNull)
  /\ (forall w, parse fuel h p s = Return w -> w <> VNull ->
        exists c', invoke fuel h p c0 = Return (Some (w, c'))
                   /\ offset c' = str_length s).
Proof.
  intros c0.
  assert (Hcomplete : forall v c',
    invoke fuel h p c0 = Return (Some (v, c')) ->
    isComplete c' = (offset c' =? str_length s)).
  { intros v c' Hrun. apply invoke_string in Hrun.
    unfold isComplete. by rewrite Hrun. }
  unfold parse. fold c0.
  repeat split.
  - intros v c' Hrun Hoff. rewrite Hrun. simpl.
    rewrite (Hcomplete _ _ Hrun). by rewrite (proj2 (Z.eqb_eq _ _) Hoff).
  - intros ->. done.
  - intros v c' Hrun Hoff. rewrite Hrun. simpl.
    rewrite (Hcomplete _ _ Hrun).
    by rewrite (proj2 (Z.eqb_neq _ _)) by lia.
  - intros v c' Hrun Hoff. rewrite Hrun. simpl.
    rewrite (Hcomplete _ _ Hrun).
    by rewrite (proj2 (Z.eqb_neq _ _)) by lia.
  - intros w. destruct (invoke fuel h p c0) as [| |[[v c']|]] eqn:Hrun;
      simpl; try done.
    + rewrite (Hcomplete _ _ eq_refl).
      destruct (offset c' =? str_length s) eqn:Hoff.
      * intros [= ->] _. exists c'. split; [done|]. by apply Z.eqb_eq.
      * by intros [= <-].
    + by intros [= <-].
Qed.

(** C4.  [opt(p)(c)] never returns the failure [null]: when [p(c)]
    succeeds with [v] and [c'] it returns the formatted [{opt: v}] with
    [c'], and when [p(c)] fails it returns the formatted [{opt: null}]
    with the state [c] it was given.  (The formatted value is what the
    formatter returns on it; without a formatter it is the tagged value
    itself.) *)
Theorem C4_opt_never_fails h p f c :
  (forall k, invoke k h (opt p f) c <> Return None)
  /\ (forall k v c', invoke k h p c = Return (Some (v, c')) ->
        invoke (S k) h (opt p f) c
        = formatted (or_id f) (tagged "opt" v) c')
  /\ (forall k, invoke k h p c = Return None ->
        invoke (S k) h (opt p f) c
        = formatted (or_id f) (tagged "opt" VNull) c).
Proof.
  repeat split.
  - intros [|k]; simpl; [done|].
    destruct (invoke k h p c) as [| |[[v c']|]]; simpl; try done;
      apply formatted_not_null.
  - intros k v c' Hrun. simpl. by rewrite Hrun.
  - intros k Hrun. simpl. by rewrite Hrun.
Qed.

(** What [alt] does with the parsers in front of the first success. *)
Lemma alt_for_skip k h pre rest f c :
  Forall (fun q => invoke k h q c = Return None) pre ->
  alt_for (invoke k h) (pre ++ rest) f c = alt_for (invoke k h) rest f c.
Proof.
  induction 1 as [|q pre Hq _ IH]; simpl; [done|]. by rewrite Hq.
Qed.

(** C5.  [alt(ps)(c)] calls the parsers of [ps] in order, each on the
    same state [c]: when the parsers in front of [p] all fail at [c] and
    [p] succeeds there with [v] and [c'], the result is the formatted
    [{alt: v}] with [c']; in particular when [p1] succeeds, [alt([p1,
    p2])] gives [p1]'s result whatever [p2] does; when every parser fails
    at [c] the result is the failure [null], with no state.  (The
    formatted value is what the formatter returns on it; without a
    formatter it is the tagged value itself.) *)
Theorem C5_alt_first_success h f c k :
  (forall pre p post v c',
     Forall (fun q => invoke k h q c = Return None) pre ->
     invoke k h p c = Return (Some (v, c')) ->
     invoke (S k) h (alt (pre ++ p :: post) f) c
     = formatted (or_id f) (tagged "alt" v) c')
  /\ (forall p1 p2 v1 c1,
        invoke k h p1 c = Return (Some (v1, c1)) ->
        invoke (S k) h (alt [p1; p2] f) c
        = formatted (or_id f) (tagged "alt" v1) c1)
  /\ (forall ps,
        Forall (fun q => invoke k h q c = Return None) ps ->
        invoke (S k) h (alt ps f) c = Return None).
Proof.
  repeat split.
  - intros pre p post v c' Hpre Hp. simpl.
    rewrite alt_for_skip by done. simpl. by rewrite Hp.
  - intros p1 p2 v1 c1 Hp. simpl. by rewrite Hp.
  - intros ps Hps. simpl.
    rewrite <- (app_nil_r ps). by rewrite alt_for_skip.
Qed.


(** C7, amended.  A formatter is called on the value of a success and on
    nothing else: for each combinator the outcome with formatter [f] is
    the outcome without formatter, except that on a success with the
    default tagged value [d] and the state [c'] the parser calls [f(d)].
    It then succeeds with what [f(d)] returns and the same state [c'], and
    throws what [f(d)] throws.  So the parser with [f] fails exactly when
    the parser without does, and for a formatter that returns on [d] both
    succeed together, with the same state. *)
Theorem C7_formatter_transparent k h f c :
  (forall s, invoke k h (str s (Some f)) c
             = map_value f (invoke k h (str s None) c))
  /\ (forall chars, invoke k h (char chars (Some f)) c
                    = map_value f (invoke k h (char chars None) c))
  /\ (forall ps, invoke k h (seq ps (Some f)) c
                 = map_value f (invoke k h (seq ps None) c))
  /\ (forall p n, invoke k h (rep p n (Some f)) c
                  = map_value f (invoke k h (rep p n None) c))
  /\ (forall p, invoke k h (opt p (Some f)) c
                = map_value f (invoke k h (opt p None) c))
  /\ (forall ps, invoke k h (alt ps (Some f)) c
                 = map_value f (invoke k h (alt ps None) c))
  /\ (forall r, map_value f r = Return None <-> r = Return None)
  /\ (forall r v c',
        map_value f r = Return (Some (v, c'))
        <-> exists d, r = Return (Some (d, c')) /\ f d = Return v).
Proof.
  assert (Hnull : forall r, map_value f r = Return None <-> r = Return None).
  { intros [| |[[d st]|]]; simpl; try done.
    split; [|done]. intros Hd. by apply formatted_not_null in Hd. }
  assert (Hsome : forall r v c',
            map_value f r = Return (Some (v, c'))
            <-> exists d, r = Return (Some (d, c')) /\ f d = Return v).
  { intros [| |[[d st]|]] v c'; simpl;
      try (split; [done|by intros (d' & Hd & _)]).
    rewrite formatted_returns. split.
    - intros [Hv ->]. by exists d.
    - by intros (d' & [= <- <-] & Hv). }
  cut ((forall s, invoke k h (str s (Some f)) c
                  = map_value f (invoke k h (str s None) c))
       /\ (forall chars, invoke k h (char chars (Some f)) c
                         = map_value f (invoke k h (char chars None) c))
       /\ (forall ps, invoke k h (seq ps (Some f)) c
                      = map_value f (invoke k h (seq ps None) c))
       /\ (forall p n, invoke k h (rep p n (Some f)) c
                       = map_value f (invoke k h (rep p n None) c))
       /\ (forall p, invoke k h (opt p (Some f)) c
                     = map_value f (invoke k h (opt p None) c))
       /\ (forall ps, invoke k h (alt ps (Some f)) c
                      = map_value f (invoke k h (alt ps None) c))).
  { intros (H1 & H2 & H3 & H4 & H5 & H6).
    exact (conj H1 (conj H2 (conj H3 (conj H4 (conj H5
             (conj H6 (conj Hnull Hsome))))))). }
  clear Hnull Hsome.
  destruct k as [|k]; [by repeat split|]. repeat split.
  - intros s. simpl. by destruct (String.eqb _ _).
  - intros chars. simpl. destruct (RegExp _) as [regex|]; [|done].
    by destruct (regex _).
  - intros ps. simpl.
    destruct (reduce _ _ _) as [| |res]; simpl; try done.
    by destruct (success res).
  - intros p n. simpl.
    destruct (rep_while _ _ _ _ _) as [| |[ms st]]; simpl; try done.
    by destruct (_ >=? _).
  - intros p. simpl.
    by destruct (invoke k h p c) as [| |[[v st]|]].
  - intros ps. simpl. induction ps as [|q ps IH]; simpl; [done|].
    by destruct (invoke k h q c) as [| |[[v st]|]].
Qed.

(** C8.  When the context object binds [name] to [q] at the time the
    parser [ref(ctx, name)] is called, the call is the call of [q] on the
    same state: the same outcome, with nothing wrapped around the value.
    The closure holds only the reference [ctx] and the name, so the store
    [h] is the one of the call, whatever it was when [ref] was applied. *)
Theorem C8_ref_delegates h ctx name q c :
  get_prop h ctx name = Some q ->
  (forall k, invoke (S k) h (ref ctx name) c = invoke k h q c)
  /\ (forall r, r <> OutOfFuel ->
        (exists k, invoke k h (ref ctx name) c = r)
        <-> (exists k, invoke k h q c = r)).
Proof.
  intros Hget.
  assert (Hstep : forall k, invoke (S k) h (ref ctx name) c = invoke k h q c).
  { intros k. simpl. by rewrite Hget. }
  split; [exact Hstep|]. intros r Hr. split.
  - intros [[|k] Hk]; [simpl in Hk; congruence|].
    exists k. by rewrite <- Hstep.
  - intros [k Hk]. exists (S k). by rewrite Hstep.
Qed.

(** C9, amended.  When [ctx[name]] is [undefined] at the time the parser
    [ref(ctx, name)] is called, that is when [name] is neither bound in
    the context object nor the name of a member that the object inherits
    from [Object.prototype], the call throws (a [TypeError]: [undefined]
    is not a function); it never returns, and so never returns the
    failure [null]. *)
Theorem C9_ref_unbound_throws h ctx name c :
  get_prop h ctx name = None ->
  Object_prototype name = None ->
  (forall k, invoke (S k) h (ref ctx name) c = Throw TypeError)
  /\ (forall k r, invoke k h (ref ctx name) c <> Return r).
Proof.
  intros Hget Hproto.
  assert (Hin : inherited h ctx name = Throw TypeError).
  { unfold inherited. rewrite Hproto. by destruct (h !! ctx). }
  split.
  - intros k. simpl. by rewrite Hget.
  - intros [|k] r; simpl; [done|]. by rewrite Hget, Hin.
Qed.

(** C10.  A success whose value is [null] cannot be told from a failure
    at [parse]: [parse] answers [null] for it.  Such is the parser
    [str('x', function () { return null })] on ['x']: it succeeds and
    consumes the whole string, and [parse] answers [null], which is also
    its answer for the failure on ['y']. *)
Theorem C10_null_value_looks_like_failure :
  (forall fuel h p s c',
     invoke fuel h p (mkParseState s 0) = Return (Some (VNull, c')) ->
     parse fuel h p s = Return VNull)
  /\ (let p := str "x" (Some (fun _ => Return VNull)) in
      invoke 1 ∅ p (mkParseState "x" 0)
      = Return (Some (VNull, mkParseState "x" 1))
      /\ offset (mkParseState "x" 1) = str_length "x"
      /\ isComplete (mkParseState "x" 1) = true
      /\ parse 1 ∅ p "x" = Return VNull
      /\ invoke 1 ∅ p (mkParseState "y" 0) = Return None
      /\ parse 1 ∅ p "y" = Return VNull).
Proof.
  split; [|by repeat split].
  intros fuel h p s c' Hrun. unfold parse. rewrite Hrun. simpl.
  by destruct (isComplete c').
Qed.

End Claims.

(** ** Repetition *)

Section Repetition.

Context {host : Host}.

(** Along a greedy run the loop of [rep] collects the results of the run
    and stops with [lastState] at the state where [p] failed. *)
Lemma rep_while_run h p c vs c' :
  greedy_run h p c vs c' ->
  exists k, forall ms,
    rep_while (invoke k h) k p c ms = Return ((ms ++ vs)%list, c').
Proof.
  induction 1 as [c [k0 Hk0]|c v c1 vs c' [k0 Hk0] _ [k1 IH]].
  - exists (S k0). intros ms. cbn [rep_while].
    rewrite (invoke_mono h k0 (S k0) p c _ ltac:(lia) Hk0 ltac:(done)).
    rewrite bind_Return. by rewrite app_nil_r.
  - exists (S (Nat.max k0 k1)). intros ms.
    cbn [rep_while].
    rewrite (invoke_mono h k0 (S (Nat.max k0 k1)) p c _
               ltac:(lia) Hk0 ltac:(done)).
    rewrite bind_Return. cbv beta iota.
    pose proof (rep_while_le (invoke k1 h) (invoke (S (Nat.max k0 k1)) h)
                  k1 (Nat.max k0 k1) p
                  (invoke_le h k1 (S (Nat.max k0 k1)) ltac:(lia))
                  ltac:(lia) c1 (ms ++ [v]))
      as Hle.
    rewrite IH in Hle. apply res_le_done in Hle; [|done].
    rewrite Hle. by rewrite <- app_assoc.
Qed.

(** The greedy run from a state is unique. *)
Lemma greedy_run_det h p c vs1 c1 vs2 c2 :
  greedy_run h p c vs1 c1 -> greedy_run h p c vs2 c2 ->
  vs1 = vs2 /\ c1 = c2.
Proof.
  intros H1. revert vs2 c2.
  induction H1 as [c [k Hk]|c v ca vs c' [k Hk] _ IH]; intros vs2 c2 H2.
  - destruct H2 as [c [k2 Hk2]|c w cb ws c'' [k2 Hk2] _]; [done|].
    pose proof (invoke_det h k k2 p c _ _ Hk ltac:(done) Hk2 ltac:(done)).
    congruence.
  - destruct H2 as [c [k2 Hk2]|c w cb ws c'' [k2 Hk2] H2].
    + pose proof (invoke_det h k k2 p c _ _ Hk ltac:(done) Hk2 ltac:(done)).
      congruence.
    + pose proof (invoke_det h k k2 p c _ _ Hk ltac:(done) Hk2 ltac:(done))
        as [= -> ->].
      destruct (IH _ _ H2) as [-> ->]. done.
Qed.

(** C2.  Let [vs] be the results of the maximal greedy run of [p] from
    [c], and [c'] the state left by its last success ([c] itself when the
    run is empty), where [p] then fails.  The call [rep(p, n)(c)] stops
    there: it fails exactly when the length of [vs] is less than [n], and
    otherwise it is the formatted [{rep: vs}] with the state [c'], a
    success with that value when there is no formatter. *)
Theorem C2_rep_greedy_run h p n f c vs c' :
  greedy_run h p c vs c' ->
  (exists k, forall k', (k <= k')%nat ->
     invoke k' h (rep p n f) c = rep_answer n f vs c')
  /\ (forall k r, invoke k h (rep p n f) c = r -> r <> OutOfFuel ->
        r = rep_answer n f vs c')
  /\ ((exists v c'', returns h (rep p n f) c (Some (v, c'')))
      <-> Z.of_nat (length vs) >= n
          /\ exists w, or_id f (tagged "rep" (VArr vs)) = Return w)
  /\ (forall v c'', returns h (rep p n f) c (Some (v, c'')) ->
        or_id f (tagged "rep" (VArr vs)) = Return v /\ c'' = c')
  /\ (returns h (rep p n f) c None <-> Z.of_nat (length vs) < n)
  /\ (vs = [] -> c' = c).
Proof.
  intros Hrun.
  assert (Hex : exists k, forall k', (k <= k')%nat ->
    invoke k' h (rep p n f) c = rep_answer n f vs c').
  { destruct (rep_while_run _ _ _ _ _ Hrun) as [k Hk].
    exists (S k). intros [|k'] Hle; [lia|]. simpl.
    pose proof (rep_while_le (invoke k h) (invoke k' h) k k' p
                  (invoke_le h k k' ltac:(lia)) ltac:(lia) c []) as Hle'.
    rewrite Hk in Hle'. apply res_le_done in Hle'; [|done].
    rewrite Hle'. simpl. unfold rep_answer.
    by destruct (_ >=? _). }
  assert (Huniq : forall k r, invoke k h (rep p n f) c = r ->
    r <> OutOfFuel -> r = rep_answer n f vs c').
  { intros k r Hk Hr. destruct Hex as [k' Hk'].
    rewrite <- (Hk' (Nat.max k k') ltac:(lia)). symmetry.
    by apply (invoke_mono h k (Nat.max k k')); [lia| |]. }
  split; [exact Hex|]. split; [exact Huniq|].
  split; [split|split; [|split]].
  - intros (v & c'' & k & Hk). apply Huniq in Hk; [|done].
    unfold rep_answer in Hk.
    destruct (Z.of_nat (length vs) >=? n) eqn:Hn; [|done].
    apply Z.geb_ge in Hn. symmetry in Hk.
    apply formatted_returns in Hk as [Hf _]. split; [lia|eauto].
  - intros [Hn [w Hw]]. destruct Hex as [k Hk].
    exists w, c', k. rewrite (Hk k) by lia. unfold rep_answer.
    rewrite (proj2 (Z.geb_ge _ _)) by lia. by apply formatted_Return.
  - intros v c'' [k Hk]. apply Huniq in Hk; [|done].
    unfold rep_answer in Hk. destruct (_ >=? _); [|done].
    symmetry in Hk. by apply formatted_returns in Hk.
  - split.
    + intros [k Hk]. apply Huniq in Hk; [|done]. unfold rep_answer in Hk.
      destruct (Z.of_nat (length vs) >=? n) eqn:Hn.
      * symmetry in Hk. by apply formatted_not_null in Hk.
      * destruct (Z.geb_spec (Z.of_nat (length vs)) n); [done|lia].
    + intros Hn. destruct Hex as [k Hk]. exists k.
      rewrite (Hk k) by lia. unfold rep_answer.
      destruct (Z.geb_spec (Z.of_nat (length vs)) n); [lia|done].
  - intros ->. by inversion Hrun.
Qed.

End Repetition.

(** ** The literal parser stays within the string *)

Lemma substring_length n m s :
  (String.length (String.substring n m s)
   <= Nat.min m (String.length s - n))%nat.
Proof.
  revert n m. induction s as [|a s IH]; intros [|n] [|m];
    cbn [String.substring String.length]; try lia.
  - specialize (IH 0%nat m). lia.
  - specialize (IH n 0%nat). lia.
  - specialize (IH n (S m)). lia.
Qed.

(** A chunk of [n > 0] characters peeked within bounds ends within
    bounds. *)
Lemma peek_full c n :
  0 < n -> in_bounds c -> str_length (peek c n) = n ->
  offset c + n <= str_length (string_ c).
Proof.
  unfold in_bounds, peek, slice, slice_index, str_length.
  intros Hn Hc Hlen.
  match type of Hlen with
  | context [String.substring ?a ?b ?s] =>
      pose proof (substring_length a b s) as Hsub
  end.
  destruct (Z.ltb_spec (offset c) 0), (Z.ltb_spec (offset c + n) 0); lia.
Qed.

Section Literal.

Context {host : Host}.

Lemma formatted_ends f x st :
  always_ends f -> formatted (or_id f) x st <> OutOfFuel.
Proof.
  intros Hf. unfold formatted. specialize (Hf x).
  by destruct (or_id f x).
Qed.

Lemma no_formatter_ends : always_ends None.
Proof. by intros x. Qed.

Lemma str_ends h s f c : always_ends f -> terminates h (str s f) c.
Proof.
  intros Hf. exists 1%nat. simpl.
  destruct (String.eqb _ _); [by apply formatted_ends|done].
Qed.

Lemma str_advances h s f c v c' :
  s <> "" -> in_bounds c -> returns h (str s f) c (Some (v, c')) ->
  offset c < offset c' /\ in_bounds c'.
Proof.
  intros Hs Hc [[|k] Hk]; [done|]. simpl in Hk.
  destruct (String.eqb_spec (peek c (str_length s)) s) as [Hpeek|]; [|done].
  apply formatted_returns in Hk as [_ ->].
  assert (Hpos : 0 < str_length s).
  { unfold str_length. destruct s; [done|]. simpl. lia. }
  pose proof (peek_full c (str_length s) Hpos Hc) as Hfull.
  rewrite Hpeek in Hfull. specialize (Hfull eq_refl).
  unfold in_bounds. simpl. lia.
Qed.

End Literal.

(** ** A class that matches the empty chunk

    Past the end of the string [peek] is empty.  A regular expression that
    accepts the empty chunk (the source that [char] builds need not be a
    single class: [char('a]*|[b')] builds [[a]*|[b]]) makes [char] succeed
    there, one position further each time, and [rep] of it never ends. *)

Lemma substring_past n m s :
  (String.length s <= n)%nat -> String.substring n m s = "".
Proof.
  revert n m. induction s as [|a s IH]; intros [|n] [|m]; simpl;
    try done; try lia.
  - intros Hn. apply IH. lia.
  - intros Hn. apply IH. lia.
Qed.

Lemma peek_past c n :
  0 <= n -> str_length (string_ c) <= offset c -> peek c n = "".
Proof.
  unfold peek, slice, slice_index, str_length. intros Hn Hc.
  apply substring_past.
  destruct (Z.ltb_spec (offset c) 0), (Z.ltb_spec (offset c + n) 0); lia.
Qed.

Section EmptyMatch.

Context {host : Host}.

Variable chars : string.
Variable regex : string -> bool.
Hypothesis regex_built : RegExp ("[" +:+ chars +:+ "]") = Some regex.
Hypothesis regex_empty : regex "" = true.

Lemma char_past_end k h f c :
  str_length (string_ c) <= offset c ->
  invoke (S k) h (char chars f) c
  = formatted (or_id f) (tagged "char" (VStr "")) (read c 1).
Proof.
  intros Hc. simpl. rewrite regex_built.
  rewrite peek_past by (done || lia). by rewrite regex_empty.
Qed.

Lemma rep_char_diverges h f n g c :
  always_returns f ->
  str_length (string_ c) <= offset c ->
  ~ terminates h (rep (char chars f) n g) c.
Proof.
  intros Hf Hc [k Hk]. apply Hk. clear Hk.
  destruct k as [|k]; [done|]. cbn [invoke rep].
  assert (Hloop : forall j c ms,
    str_length (string_ c) <= offset c ->
    rep_while (invoke k h) j (char chars f) c ms = OutOfFuel).
  { clear c Hc. induction j as [|j IH]; intros c ms Hc; [done|].
    cbn [rep_while]. destruct k as [|k]; [done|].
    rewrite char_past_end by done.
    destruct (Hf (tagged "char" (VStr ""))) as [w Hw].
    rewrite (formatted_Return _ _ _ _ Hw).
    rewrite bind_Return. cbv beta iota.
    apply IH. simpl. lia. }
  by rewrite Hloop.
Qed.

End EmptyMatch.

(** ** Termination of the repetition loop *)

Section Termination.

Context {host : Host}.

Variable h : Store.
Variable p : Parser.

(** Every call of [p] within bounds ends. *)
Hypothesis p_ends : forall c, in_bounds c -> terminates h p c.

(** Every success of [p] within bounds moves the offset forward and stays
    within bounds. *)
Hypothesis p_advances : forall c v c',
  in_bounds c -> returns h p c (Some (v, c')) ->
  offset c < offset c' /\ in_bounds c'.

(** The loop of [rep] ends after at most [m + 1] calls of [p] when [m]
    characters are left. *)
Lemma rep_while_ends (m : nat) :
  forall c, in_bounds c ->
    (Z.to_nat (str_length (string_ c) - offset c) <= m)%nat ->
    exists k, forall ms, rep_while (invoke k h) k p c ms <> OutOfFuel.
Proof.
  induction m as [|m IH]; intros c Hc Hm.
  - destruct (p_ends c Hc) as [k0 Hk0]. exists (S k0). intros ms.
    cbn [rep_while].
    destruct (invoke k0 h p c) as [|e|[[v c']|]] eqn:Hrun; [done| | |].
    + by rewrite (invoke_mono h k0 (S k0) p c _ ltac:(lia) Hrun ltac:(done)).
    + destruct (p_advances c v c' Hc (ex_intro _ k0 Hrun)) as [Hlt Hc'].
      apply invoke_string in Hrun. unfold in_bounds in *.
      rewrite Hrun in Hc'. lia.
    + by rewrite (invoke_mono h k0 (S k0) p c _ ltac:(lia) Hrun ltac:(done)).
  - destruct (p_ends c Hc) as [k0 Hk0].
    destruct (invoke k0 h p c) as [|e|[[v c']|]] eqn:Hrun; [done| | |].
    + exists (S k0). intros ms. cbn [rep_while].
      by rewrite (invoke_mono h k0 (S k0) p c _ ltac:(lia) Hrun ltac:(done)).
    + destruct (p_advances c v c' Hc (ex_intro _ k0 Hrun)) as [Hlt Hc'].
      pose proof (invoke_string _ _ _ _ _ _ Hrun) as Hstr.
      destruct (IH c' Hc') as [k1 Hk1].
      { unfold in_bounds in *. rewrite Hstr in *. lia. }
      exists (S (Nat.max k0 k1)). intros ms. cbn [rep_while].
      rewrite (invoke_mono h k0 (S (Nat.max k0 k1)) p c _
                 ltac:(lia) Hrun ltac:(done)).
      rewrite bind_Return. cbv beta iota.
      pose proof (rep_while_le (invoke k1 h) (invoke (S (Nat.max k0 k1)) h)
                    k1 (Nat.max k0 k1) p
                    (invoke_le h k1 (S (Nat.max k0 k1)) ltac:(lia))
                    ltac:(lia) c' (ms ++ [v]))
        as Hle.
      apply res_le_done in Hle; [|apply Hk1].
      rewrite Hle. apply Hk1.
    + exists (S k0). intros ms. cbn [rep_while].
      by rewrite (invoke_mono h k0 (S k0) p c _ ltac:(lia) Hrun ltac:(done)).
Qed.

End Termination.

Section TerminationClaim.

Context {host : Host}.


End TerminationClaim.

(** ** Slices of a string *)

Lemma substring_length_eq n m s :
  String.length (String.substring n m s)
  = Nat.min m (String.length s - n).
Proof.
  revert n m. induction s as [|a s IH]; intros [|n] [|m];
    cbn [String.substring String.length]; try lia.
  - specialize (IH 0%nat m). lia.
  - specialize (IH n 0%nat). lia.
  - specialize (IH n (S m)). lia.
Qed.

Lemma substring_zero n s : String.substring n 0 s = "".
Proof. revert n. induction s as [|a s IH]; intros [|n]; simpl; auto. Qed.

Lemma append_cons a s t : String a s +:+ t = String a (s +:+ t).
Proof. reflexivity. Qed.

Lemma append_nil t : "" +:+ t = t.
Proof. reflexivity. Qed.

Lemma substring_split n m1 m2 s :
  String.substring n (m1 + m2) s
  = String.substring n m1 s +:+ String.substring (n + m1) m2 s.
Proof.
  revert n m1. induction s as [|a s IH]; intros n m1.
  - by destruct n, m1, m2.
  - destruct n as [|n].
    + destruct m1 as [|m1]; [done|].
      simpl. rewrite append_cons. f_equal. apply (IH 0%nat m1).
    + simpl. apply IH.
Qed.

Lemma substring_all s : String.substring 0 (String.length s) s = s.
Proof. induction s as [|a s IH]; simpl; [done|]. by rewrite IH. Qed.

Lemma substring_skip pre s m :
  String.substring (String.length pre) m (pre +:+ s) = String.substring 0 m s.
Proof.
  induction pre as [|a pre IH]; [done|]. rewrite append_cons. apply IH.
Qed.

Lemma substring_prefix s post :
  String.substring 0 (String.length s) (s +:+ post) = s.
Proof.
  induction s as [|a s IH]; [apply substring_zero|].
  rewrite append_cons. simpl. by rewrite IH.
Qed.

Lemma string_app_length s t :
  String.length (s +:+ t) = (String.length s + String.length t)%nat.
Proof.
  induction s as [|a s IH]; [done|]. rewrite append_cons. simpl.
  by rewrite IH.
Qed.

Lemma substring_clip n m s :
  String.substring n (Nat.min m (String.length s - n)) s
  = String.substring n m s.
Proof.
  revert n m. induction s as [|a s IH]; intros [|n] [|m]; simpl; try done.
  - f_equal. rewrite <- (IH 0%nat m). f_equal. lia.
  - apply (IH n (S m)).
Qed.

(** A string is the part before [n] followed by the part from [n]. *)
Lemma substring_cut n s :
  s = String.substring 0 n s
      +:+ String.substring n (String.length s - n) s.
Proof.
  revert n. induction s as [|a s IH]; intros [|n]; simpl; try done.
  - rewrite append_nil. by rewrite substring_all.
  - rewrite append_cons. f_equal. apply IH.
Qed.

Lemma slice_index_nonneg len i :
  0 <= len -> 0 <= i -> slice_index len i = Z.min i len.
Proof.
  intros Hlen Hi. unfold slice_index.
  destruct (Z.ltb_spec i 0); [lia|done].
Qed.

(** [slice] with indices that are not negative. *)
Lemma slice_nonneg s i j :
  0 <= i -> 0 <= j ->
  slice s i j
  = String.substring (Z.to_nat (Z.min i (str_length s)))
      (Z.to_nat (Z.min j (str_length s)) - Z.to_nat (Z.min i (str_length s)))
      s.
Proof.
  intros Hi Hj. unfold slice.
  rewrite !slice_index_nonneg by (done || apply str_length_nonneg).
  f_equal. unfold str_length. lia.
Qed.


(** ** What [peek] sees *)

Lemma peek_length c n :
  0 <= offset c -> 0 <= n ->
  str_length (peek c n)
  = Z.max 0 (Z.min n (str_length (string_ c) - offset c)).
Proof.
  intros Ho Hn. unfold peek. rewrite slice_nonneg by lia.
  unfold str_length at 1. rewrite substring_length_eq.
  unfold str_length. lia.
Qed.

Lemma peek_read_split c n m :
  0 <= offset c -> 0 <= n -> 0 <= m ->
  peek c (n + m) = peek c n +:+ peek (read c n) m.
Proof.
  intros Ho Hn Hm. unfold peek, read. cbn [string_ offset].
  rewrite !slice_nonneg by lia.
  set (len := str_length (string_ c)).
  assert (Hlen : 0 <= len) by apply str_length_nonneg.
  set (a := Z.to_nat (Z.min (offset c) len)).
  set (b := Z.to_nat (Z.min (offset c + n) len)).
  set (d := Z.to_nat (Z.min (offset c + n + m) len)).
  replace (Z.to_nat (Z.min (offset c + (n + m)) len)) with d
    by (unfold d; f_equal; lia).
  assert (Hab : (a <= b)%nat) by (unfold a, b; lia).
  assert (Hbd : (b <= d)%nat) by (unfold b, d; lia).
  replace (d - a)%nat with ((b - a) + (d - b))%nat by lia.
  rewrite substring_split. do 2 f_equal. lia.
Qed.

(** Within the string, [peek] of at least one character is empty exactly
    at the end of the input, where [isComplete] holds. *)
Theorem peek_empty_iff_complete c n :
  0 <= offset c <= str_length (string_ c) -> 0 < n ->
  peek c n = "" <-> isComplete c = true.
Proof.
  intros Ho Hn. unfold isComplete. rewrite Z.eqb_eq.
  pose proof (peek_length c n ltac:(lia) ltac:(lia)) as Hlen.
  split.
  - intros Hpeek. rewrite Hpeek in Hlen. unfold str_length at 1 in Hlen.
    simpl in Hlen. lia.
  - intros Heq. destruct (peek c n) eqn:Hpeek; [done|].
    unfold str_length at 1 in Hlen. simpl in Hlen. lia.
Qed.

(** The chunk [peek] returns has the length asked for exactly when it is
    a piece of the string at the offset. *)
Lemma peek_eq_iff c s :
  0 <= offset c <= str_length (string_ c) ->
  peek c (str_length s) = s
  <-> exists pre post,
        string_ c = pre +:+ s +:+ post /\ str_length pre = offset c.
Proof.
  intros Ho. split.
  - intros Hpeek.
    pose proof (peek_length c (str_length s) ltac:(lia)
                  (str_length_nonneg s)) as Hlen.
    rewrite Hpeek in Hlen.
    pose proof (str_length_nonneg s) as Hs.
    assert (Hfit : offset c + str_length s <= str_length (string_ c)) by lia.
    set (o := Z.to_nat (offset c)).
    set (t := string_ c) in *.
    set (rest := (String.length t - o - String.length s)%nat).
    exists (String.substring 0 o t),
      (String.substring (o + String.length s) rest t).
    assert (Hchunk : String.substring o (String.length s) t = s).
    { rewrite <- Hpeek at 2. unfold peek. rewrite slice_nonneg by lia.
      fold t. unfold str_length in *. f_equal; lia. }
    split.
    + rewrite (substring_cut o t) at 1. f_equal.
      replace (String.length t - o)%nat
        with (String.length s + rest)%nat
        by (unfold rest, str_length in *; lia).
      rewrite substring_split. by rewrite Hchunk.
    + unfold str_length at 1. rewrite substring_length_eq.
      unfold str_length in *. lia.
  - intros (pre & post & Hstr & Hpre).
    pose proof (str_length_nonneg s) as Hs0.
    unfold peek. rewrite slice_nonneg by lia.
    rewrite Hstr.
    assert (Hlen : str_length (pre +:+ s +:+ post)
                   = str_length pre + str_length s + str_length post).
    { unfold str_length. rewrite !string_app_length. lia. }
    pose proof (str_length_nonneg post) as Hpost.
    rewrite Hlen.
    replace (Z.to_nat (Z.min (offset c)
               (str_length pre + str_length s + str_length post)))
      with (String.length pre) by (unfold str_length in *; lia).
    replace (Z.to_nat (Z.min (offset c + str_length s)
               (str_length pre + str_length s + str_length post))
             - String.length pre)%nat
      with (String.length s) by (unfold str_length in *; lia).
    rewrite substring_skip. apply substring_prefix.
Qed.


(** [peek(n)] never fails and never returns more than [n] characters.
    From an offset that is not negative it returns the [n] characters from
    the offset on, or as many as the string has left; past the end of the
    string it returns the empty string. *)
Theorem peek_is_clipped c n :
  0 <= n ->
  str_length (peek c n) <= n
  /\ (0 <= offset c ->
      str_length (peek c n)
      = Z.max 0 (Z.min n (str_length (string_ c) - offset c)))
  /\ (str_length (string_ c) <= offset c -> peek c n = "").
Proof.
  intros Hn. split; [|split].
  - unfold peek, slice, slice_index, str_length.
    match goal with
    | |- context [String.substring ?a ?b ?s] =>
        pose proof (substring_length a b s) as Hsub
    end.
    destruct (Z.ltb_spec (offset c) 0), (Z.ltb_spec (offset c + n) 0); lia.
  - intros Ho. by apply peek_length.
  - intros Ho. by apply peek_past.
Qed.

(** Peeking [n + m] characters is peeking [n] characters and then [m]
    more from the state that [read(n)] gives. *)
Theorem peek_then_read c n m :
  0 <= offset c -> 0 <= n -> 0 <= m ->
  peek c (n + m) = peek c n +:+ peek (read c n) m.
Proof. apply peek_read_split. Qed.

(** ** The literal parser against the string *)

Lemma append_inj_length x y a b :
  String.length x = String.length a ->
  x +:+ y = a +:+ b -> x = a /\ y = b.
Proof.
  revert a. induction x as [|cx x IH]; intros [|ca a]; simpl; try done.
  intros [= Hlen]. rewrite !append_cons. intros [= -> Happ].
  destruct (IH a Hlen Happ) as [-> ->]. done.
Qed.

Section LiteralMatch.

Context {host : Host}.

Lemma invoke_str k h s f c :
  invoke (S k) h (str s f) c
  = if String.eqb (peek c (str_length s)) s
    then formatted (or_id f) (tagged "str" (VStr s)) (read c (str_length s))
    else Return None.
Proof.
  simpl. destruct (String.eqb_spec (peek c (str_length s)) s) as [->|];
    done.
Qed.

Lemma invoke_seq k h ps f c :
  invoke (S k) h (seq ps f) c
  = result ← reduce (seq_step (invoke k h)) ps (mkSeqAcc true c []);
    if success result
    then formatted (or_id f) (tagged "seq" (VArr (matches result)))
           (state result)
    else Return None.
Proof. reflexivity. Qed.

Lemma invoke_seq2 k h p q g c :
  invoke (S k) h (seq [p; q] g) c
  = r1 ← invoke k h p c;
    match r1 with
    | Some (v1, c1) =>
        r2 ← invoke k h q c1;
        match r2 with
        | Some (v2, c2) =>
            formatted (or_id g) (tagged "seq" (VArr [v1; v2])) c2
        | None => Return None
        end
    | None => Return None
    end.
Proof.
  rewrite invoke_seq. cbn [reduce]. unfold seq_step.
  cbn [success state matches negb].
  destruct (invoke k h p c) as [| |[[v1 c1]|]]; try reflexivity.
  rewrite !bind_Return. cbn [success state matches negb].
  destruct (invoke k h q c1) as [| |[[v2 c2]|]]; reflexivity.
Qed.

(** Within the string, [str(s)] succeeds exactly when the string holds [s]
    at the offset: the string is some [pre], then [s], then some [post],
    with [pre] as long as the offset.  It then returns the formatted
    [{str: s}] and the state [s.length] further; otherwise it returns
    [null]. *)
Theorem str_matches_iff h s f c :
  0 <= offset c <= str_length (string_ c) ->
  ((exists pre post,
      string_ c = pre +:+ s +:+ post /\ str_length pre = offset c) ->
   forall k, invoke (S k) h (str s f) c
             = formatted (or_id f) (tagged "str" (VStr s))
                 (read c (str_length s)))
  /\ (~ (exists pre post,
           string_ c = pre +:+ s +:+ post /\ str_length pre = offset c) ->
      forall k, invoke (S k) h (str s f) c = Return None).
Proof.
  intros Ho. split.
  - intros Hdec k. rewrite invoke_str.
    apply peek_eq_iff in Hdec; [|done]. by rewrite Hdec, String.eqb_refl.
  - intros Hdec k. rewrite invoke_str.
    destruct (String.eqb_spec (peek c (str_length s)) s) as [Hpeek|]; [|done].
    apply peek_eq_iff in Hpeek; done.
Qed.

Lemma peek_start t n :
  0 <= n -> peek (mkParseState t 0) n = String.substring 0 (Z.to_nat n) t.
Proof.
  intros Hn. unfold peek. cbn [string_ offset].
  rewrite slice_nonneg by lia.
  pose proof (str_length_nonneg t) as Ht.
  replace (Z.to_nat (Z.min 0 (str_length t))) with 0%nat by lia.
  replace (Z.to_nat (Z.min (0 + n) (str_length t)) - 0)%nat
    with (Nat.min (Z.to_nat n) (String.length t - 0))
    by (unfold str_length in *; lia).
  apply substring_clip.
Qed.

(** [parse(str(s, f), t)] is what the formatter makes of [{str: s}] when
    [t] is [s].  For every other string [t] it is [null]; the formatter
    is still called when [s] is a proper prefix of [t], and what it throws
    then is thrown by [parse]. *)
Theorem parse_str k h s f t :
  parse (S k) h (str s f) t
  = (if String.eqb t s then or_id f (tagged "str" (VStr s))
     else if String.prefix s t
          then _ ← or_id f (tagged "str" (VStr s)); Return VNull
          else Return VNull)
  /\ (forall w, or_id f (tagged "str" (VStr s)) = Return w ->
        parse (S k) h (str s f) t
        = Return (if String.eqb t s then w else VNull)).
Proof.
  assert (Heq : parse (S k) h (str s f) t
    = (if String.eqb t s then or_id f (tagged "str" (VStr s))
       else if String.prefix s t
            then _ ← or_id f (tagged "str" (VStr s)); Return VNull
            else Return VNull)).
  { unfold parse. rewrite invoke_str.
    rewrite peek_start by apply str_length_nonneg.
    unfold str_length at 1. rewrite Nat2Z.id.
    destruct (String.eqb_spec t s) as [->|Hne].
    - rewrite substring_all, String.eqb_refl. unfold formatted.
      destruct (or_id f _) as [| |w]; simpl; try done.
      unfold isComplete, read. cbn [string_ offset].
      by rewrite (proj2 (Z.eqb_eq _ _)) by lia.
    - destruct (String.prefix s t) eqn:Hpre.
      + apply String.prefix_correct in Hpre.
        rewrite Hpre, String.eqb_refl. unfold formatted.
        destruct (or_id f _) as [| |w]; simpl; try done.
        unfold isComplete, read. cbn [string_ offset].
        destruct (Z.eqb_spec (0 + str_length s) (str_length t)) as [Hl|];
          [|done].
        exfalso. apply Hne. rewrite <- Hpre.
        replace (String.length s) with (String.length t)
          by (unfold str_length in Hl; lia).
        symmetry. apply substring_all.
      + destruct (String.eqb_spec (String.substring 0 (String.length s) t) s)
          as [Hsub|]; [|done].
        apply String.prefix_correct in Hsub. congruence. }
  split; [exact Heq|].
  intros w Hw. rewrite Heq, Hw. simpl.
  by destruct (String.eqb t s), (String.prefix s t).
Qed.

(** Two literals in sequence match where the concatenated literal matches:
    from a state at a non-negative offset and with formatters that
    return, [seq([str(a), str(b)])] succeeds exactly when [str(a + b)]
    does, and they return the same state. *)
Theorem seq_str_str k h a b f1 f2 f3 g c c' :
  0 <= offset c ->
  always_returns f1 -> always_returns f2 -> always_returns f3 ->
  always_returns g ->
  (exists v, invoke (S (S k)) h (seq [str a f1; str b f2] g) c
             = Return (Some (v, c')))
  <-> (exists v, invoke (S k) h (str (a +:+ b) f3) c
                 = Return (Some (v, c'))).
Proof.
  intros Ho Hf1 Hf2 Hf3 Hg.
  pose proof (str_length_nonneg a) as Ha.
  pose proof (str_length_nonneg b) as Hb.
  assert (Hlen : str_length (a +:+ b) = str_length a + str_length b).
  { unfold str_length. rewrite string_app_length. lia. }
  assert (Hread : read (read c (str_length a)) (str_length b)
                  = read c (str_length (a +:+ b))).
  { unfold read. cbn [string_ offset]. f_equal. lia. }
  assert (Hsplit : peek c (str_length (a +:+ b)) = a +:+ b
                   <-> peek c (str_length a) = a
                       /\ peek (read c (str_length a)) (str_length b) = b).
  { rewrite Hlen, peek_read_split by done. split.
    - intros Happ.
      pose proof (peek_length c (str_length a) Ho Ha) as Hla.
      pose proof (peek_length (read c (str_length a)) (str_length b)
                    ltac:(cbn [read offset]; lia) Hb) as Hlb.
      pose proof (f_equal String.length Happ) as Hsum.
      rewrite !string_app_length in Hsum.
      apply append_inj_length in Happ; [done|].
      unfold str_length in *. lia.
    - by intros [-> ->]. }
  destruct (Hf1 (tagged "str" (VStr a))) as [w1 Hw1].
  destruct (Hf2 (tagged "str" (VStr b))) as [w2 Hw2].
  destruct (Hf3 (tagged "str" (VStr (a +:+ b)))) as [w3 Hw3].
  destruct (Hg (tagged "seq" (VArr [w1; w2]))) as [wg Hwg].
  rewrite invoke_seq2, !invoke_str.
  rewrite (formatted_Return _ _ _ _ Hw1), (formatted_Return _ _ _ _ Hw3).
  destruct (String.eqb_spec (peek c (str_length a)) a) as [Hpa|Hpa];
    rewrite bind_Return; cbv beta iota.
  - rewrite invoke_str, (formatted_Return _ _ _ _ Hw2).
    destruct (String.eqb_spec (peek (read c (str_length a)) (str_length b)) b)
      as [Hpb|Hpb]; rewrite bind_Return; cbv beta iota.
    + rewrite (proj2 (String.eqb_eq _ _) (proj2 Hsplit (conj Hpa Hpb))).
      rewrite (formatted_Return _ _ _ _ Hwg), Hread.
      split; intros [v [= _ <-]]; eauto.
    + destruct (String.eqb_spec (peek c (str_length (a +:+ b))) (a +:+ b))
        as [Hab|Hab]; [|split; by intros [v ?]].
      apply Hsplit in Hab as [_ ?]. done.
  - destruct (String.eqb_spec (peek c (str_length (a +:+ b))) (a +:+ b))
      as [Hab|Hab]; [|split; by intros [v ?]].
    apply Hsplit in Hab as [? _]. done.
Qed.

End LiteralMatch.



(** ** Sequences *)

Lemma reduce_app {A B : Type} (cb : A -> B -> Result A) l1 l2 acc :
  reduce cb (l1 ++ l2) acc = reduce cb l1 acc ≫= reduce cb l2.
Proof.
  revert acc. induction l1 as [|x l1 IH]; intros acc; simpl; [done|].
  destruct (cb acc x) as [| |acc']; simpl; auto.
Qed.

(** Once a parser of the sequence has failed, the rest is skipped. *)
Lemma reduce_failed call ps c ms :
  reduce (seq_step call) ps (mkSeqAcc false c ms)
  = Return (mkSeqAcc false c ms).
Proof. induction ps as [|p ps IH]; simpl; [done|]. exact IH. Qed.

Section Sequence.

Context {host : Host}.

Lemma seq_run_reduce h ps c vs c' :
  seq_run h ps c vs c' ->
  exists k, forall ms,
    reduce (seq_step (invoke k h)) ps (mkSeqAcc true c ms)
    = Return (mkSeqAcc true c' (ms ++ vs)%list).
Proof.
  induction 1 as [c|p ps c v c1 vs c' [k0 Hk0] _ [k1 IH]].
  - exists 0%nat. intros ms. simpl. by rewrite app_nil_r.
  - exists (Nat.max k0 k1). intros ms. cbn [reduce]. unfold seq_step at 2.
    cbn [success state matches negb].
    rewrite (invoke_mono h k0 (Nat.max k0 k1) p c _
               ltac:(lia) Hk0 ltac:(done)).
    rewrite !bind_Return.
    pose proof (reduce_le (seq_step (invoke k1 h))
                  (seq_step (invoke (Nat.max k0 k1) h)) ps
                  (fun acc x => seq_step_le _ _ acc x
                     (invoke_le h k1 (Nat.max k0 k1) ltac:(lia)))
                  (mkSeqAcc true c1 (ms ++ [v]))) as Hle.
    rewrite IH in Hle. apply res_le_done in Hle; [|done].
    rewrite Hle. by rewrite <- app_assoc.
Qed.

Lemma reduce_success_run k h ps :
  forall c ms res,
    reduce (seq_step (invoke k h)) ps (mkSeqAcc true c ms) = Return res ->
    success res = true ->
    exists vs, seq_run h ps c vs (state res)
               /\ matches res = (ms ++ vs)%list.
Proof.
  induction ps as [|p ps IH]; intros c ms res.
  - simpl. intros [= <-] _. exists []. split; [constructor|].
    simpl. by rewrite app_nil_r.
  - cbn [reduce]. unfold seq_step at 2. cbn [success state matches negb].
    destruct (invoke k h p c) as [| |[[v c1]|]] eqn:Hp; try done.
    + rewrite !bind_Return. intros Hred Hres.
      destruct (IH _ _ _ Hred Hres) as (vs & Hrun & Hms).
      exists (v :: vs). split.
      * econstructor; [by exists k|done].
      * rewrite Hms. by rewrite <- app_assoc.
    + rewrite !bind_Return. rewrite reduce_failed. by intros [= <-].
Qed.

(** [seq(ps)] succeeds exactly when the parsers of [ps] succeed one after
    the other, each at the state its predecessor returned, and the
    formatter returns on [{seq: vs}], the values in order; the value is
    what the formatter returned ([{seq: vs}] itself without a formatter)
    and the state is the one the last parser returned (the given state
    for an empty [ps]). *)
Theorem seq_succeeds_iff h ps f c v c' :
  returns h (seq ps f) c (Some (v, c'))
  <-> exists vs, seq_run h ps c vs c'
                 /\ or_id f (tagged "seq" (VArr vs)) = Return v.
Proof.
  split.
  - intros [[|k] Hk]; [done|]. rewrite invoke_seq in Hk.
    destruct (reduce _ _ _) as [| |res] eqn:Hred; try done.
    rewrite bind_Return in Hk.
    destruct (success res) eqn:Hres; [|done].
    destruct (reduce_success_run _ _ _ _ _ _ Hred Hres) as (vs & Hrun & Hms).
    apply formatted_returns in Hk as [Hf ->].
    exists vs. split; [done|]. rewrite Hms in Hf. exact Hf.
  - intros (vs & Hrun & Hf).
    destruct (seq_run_reduce _ _ _ _ _ Hrun) as [k Hk].
    exists (S k). rewrite invoke_seq, Hk. rewrite bind_Return.
    cbn [success state matches app]. by apply formatted_Return.
Qed.

(** [seq] stops at the first parser that fails: when the parsers [pre]
    succeed in a row and the next parser [q] fails, the sequence returns
    [null] whatever comes after [q]; those parsers are not called. *)
Theorem seq_fails_fast h pre q post f c vs c1 :
  seq_run h pre c vs c1 ->
  returns h q c1 None ->
  returns h (seq (pre ++ q :: post) f) c None.
Proof.
  intros Hrun [k0 Hk0].
  destruct (seq_run_reduce _ _ _ _ _ Hrun) as [k1 Hk1].
  exists (S (Nat.max k0 k1)). rewrite invoke_seq, reduce_app.
  pose proof (reduce_le (seq_step (invoke k1 h))
                (seq_step (invoke (Nat.max k0 k1) h)) pre
                (fun acc x => seq_step_le _ _ acc x
                   (invoke_le h k1 (Nat.max k0 k1) ltac:(lia)))
                (mkSeqAcc true c [])) as Hle.
  rewrite Hk1 in Hle. apply res_le_done in Hle; [|done].
  rewrite Hle, bind_Return. cbn [reduce]. unfold seq_step at 2.
  cbn [success state matches negb].
  rewrite (invoke_mono h k0 (Nat.max k0 k1) q c1 _
             ltac:(lia) Hk0 ltac:(done)).
  rewrite !bind_Return. by rewrite reduce_failed.
Qed.

End Sequence.


(** ** Alternation and repetition *)

Section Choice.

Context {host : Host}.

Lemma invoke_alt k h ps f c :
  invoke (S k) h (alt ps f) c = alt_for (invoke k h) ps (or_id f) c.
Proof. reflexivity. Qed.

Lemma invoke_rep k h p n f c :
  invoke (S k) h (rep p n f) c
  = r ← rep_while (invoke k h) k p c [];
    if Z.of_nat (length r.1) >=? n
    then formatted (or_id f) (tagged "rep" (VArr r.1)) r.2
    else Return None.
Proof.
  simpl. by destruct (rep_while _ _ _ _ _) as [| |[ms st]].
Qed.

(** The alternatives of two lists put together: [alt(ps ++ qs)] is
    [alt(ps)] where that succeeds (or throws, or does not end), and
    [alt(qs)] where [alt(ps)] fails. *)
Theorem alt_app k h ps qs f c :
  invoke (S k) h (alt (ps ++ qs) f) c
  = match invoke (S k) h (alt ps f) c with
    | Return None => invoke (S k) h (alt qs f) c
    | other => other
    end.
Proof.
  rewrite !invoke_alt. induction ps as [|p ps IH]; [done|].
  cbn [app alt_for].
  destruct (invoke k h p c) as [| |[[v c']|]]; [done..| |].
  - rewrite !bind_Return. unfold formatted.
    by destruct (or_id f _).
  - rewrite !bind_Return. exact IH.
Qed.

(** With a minimum that is not positive [rep] never fails: whenever the
    call returns, it returns a success. *)
Theorem rep_without_minimum_never_fails k h p n f c r :
  n <= 0 ->
  invoke k h (rep p n f) c = Return r ->
  exists v c', r = Some (v, c').
Proof.
  intros Hn. destruct k as [|k]; [done|]. rewrite invoke_rep.
  destruct (rep_while _ _ _ _ _) as [| |r']; try done.
  rewrite bind_Return. rewrite (proj2 (Z.geb_ge _ _)) by lia.
  intros Hr. destruct r as [[v c']|]; [eauto|].
  by apply formatted_not_null in Hr.
Qed.

Lemma rep_unfailing_loop h q n f c :
  (forall k c1, invoke k h q c1 <> Return None) ->
  (forall k c1 e, invoke k h q c1 <> Throw e) ->
  forall k, invoke k h (rep q n f) c = OutOfFuel.
Proof.
  intros Hfail Hthrow k.
  destruct k as [|k]; [done|]. rewrite invoke_rep.
  assert (Hloop : forall j c1 ms,
    rep_while (invoke k h) j q c1 ms = OutOfFuel).
  { induction j as [|j IH]; intros c1 ms; [done|]. cbn [rep_while].
    destruct (invoke k h q c1) as [|e|[[v c2]|]] eqn:Hq; [done| | |].
    - by apply Hthrow in Hq.
    - rewrite bind_Return. apply IH.
    - by apply Hfail in Hq. }
  by rewrite Hloop.
Qed.


Lemma formatted_no_throw g x st e :
  (forall y e', or_id g y <> Throw e') ->
  formatted (or_id g) x st <> Throw e.
Proof.
  intros Hg. unfold formatted. specialize (Hg x).
  destruct (or_id g x) as [|e'|w]; simpl; try done.
  intros [= ->]. by apply (Hg e).
Qed.


End Choice.


(** ** The state stays within the string *)

Lemma peek_length_le c n : 0 <= n -> str_length (peek c n) <= n.
Proof.
  intros Hn. unfold peek, slice, slice_index, str_length.
  match goal with
  | |- context [String.substring ?a ?b ?s] =>
      pose proof (substring_length a b s) as Hsub
  end.
  destruct (Z.ltb_spec (offset c) 0), (Z.ltb_spec (offset c + n) 0); lia.
Qed.

Section Leaves.

Context {host : Host}.
Variable h : Store.
Variable R : ParseState -> ParseState -> Prop.
Variable ok : Parser -> Prop.

Hypothesis R_refl : forall c, R c c.
Hypothesis R_trans : forall c1 c2 c3, R c1 c2 -> R c2 c3 -> R c1 c3.
Hypothesis ok_child : forall p q, ok p -> child h p q -> ok q.
Hypothesis ok_leaf : forall k p c v c',
  ok p -> is_leaf p = true ->
  invoke k h p c = Return (Some (v, c')) -> R c c'.

(** A relation that the leaves keep is kept by every parser. *)
Lemma invoke_respects_leaves k :
  call_respects ok R (invoke k h).
Proof.
  induction k as [|k IH]; intros p c v c' Hok; [done|].
  destruct p; try (by apply (ok_leaf (S k))); simpl.
  - destruct (reduce _ _ _) as [| |res] eqn:Hred; simpl; try done.
    destruct (success res); [|done]. intros [_ ->]%formatted_returns.
    eapply (reduce_seq_respects R ok) in Hred; [exact Hred|done..|].
    eapply ok_children; eauto.
  - destruct (rep_while _ _ _ _ _) as [| |[ms st]] eqn:Hrep; simpl; try done.
    destruct (_ >=? _); [|done]. intros [_ ->]%formatted_returns.
    eapply (rep_while_respects R ok) in Hrep; [exact Hrep|done..|].
    eapply ok_child; [exact Hok|constructor].
  - destruct (invoke _ _ _ _) as [| |[[w st]|]] eqn:Hc; simpl; try done.
    + intros [_ ->]%formatted_returns. eapply IH; [|exact Hc].
      eapply ok_child; [exact Hok|constructor].
    + intros [_ ->]%formatted_returns. apply R_refl.
  - intros Halt.
    eapply (alt_for_respects R ok) in Halt; [exact Halt|exact IH|].
    eapply ok_children; eauto.
  - destruct (get_prop h ctx name) as [q|] eqn:Hget.
    + intros Hq. eapply IH; [|exact Hq].
      eapply ok_child; [exact Hok|by constructor].
    + intros Hin. by apply inherited_no_success in Hin.
Qed.

End Leaves.

Section Bounds.

Context {host : Host}.

Lemma char_success h chars f c v c' :
  class_needs_a_character chars ->
  in_bounds c ->
  returns h (char chars f) c (Some (v, c')) ->
  str_length (peek c 1) = 1
  /\ or_id f (tagged "char" (VStr (peek c 1))) = Return v
  /\ c' = read c 1
  /\ in_bounds c'.
Proof.
  intros Hcls Hc [[|k] Hk]; [done|]. simpl in Hk.
  destruct (RegExp _) as [regex|] eqn:Hre; [|done].
  destruct (regex (peek c 1)) eqn:Htest; [|done].
  apply formatted_returns in Hk as [Hf ->].
  assert (Hone : str_length (peek c 1) = 1).
  { pose proof (peek_length_le c 1 ltac:(lia)) as Hle.
    destruct (peek c 1) eqn:Hpeek.
    - rewrite (Hcls _ Hre) in Htest. done.
    - unfold str_length in *. simpl in *. lia. }
  repeat split; [done..|].
  pose proof (peek_full c 1 ltac:(lia) Hc Hone).
  unfold in_bounds. simpl. lia.
Qed.

(** [char] takes exactly one character: when the regular expression of
    its class does not accept the empty chunk, a success of [char] within
    the string has peeked one character, returns what the formatter makes
    of [{char: c}] for it, and moves one position forward, still within
    the string. *)
Theorem char_takes_one_character h chars f c v c' :
  class_needs_a_character chars ->
  in_bounds c ->
  returns h (char chars f) c (Some (v, c')) ->
  str_length (peek c 1) = 1
  /\ or_id f (tagged "char" (VStr (peek c 1))) = Return v
  /\ c' = read c 1
  /\ in_bounds c'.
Proof. apply char_success. Qed.

Lemma leaf_in_bounds h k p c v c' :
  built h p -> reachable_classes_need_a_character h p ->
  is_leaf p = true ->
  invoke k h p c = Return (Some (v, c')) ->
  in_bounds c -> in_bounds c'.
Proof.
  intros Hb Hcls Hleaf Hrun Hc. destruct k as [|k]; [done|].
  destruct p as [g|s f|chars f|ps f|q n f|q f|ps f|ctx name]; try done.
  - by apply built_not_host in Hb.
  - simpl in Hrun.
    destruct (String.eqb_spec (peek c (str_length s)) s)
      as [Hpeek|]; [|done].
    apply formatted_returns in Hrun as [_ ->].
    destruct (Z.eq_dec (str_length s) 0) as [Hz|Hnz].
    + unfold in_bounds in *. simpl. lia.
    + pose proof (str_length_nonneg s).
      pose proof (peek_full c (str_length s) ltac:(lia) Hc) as Hfull.
      rewrite Hpeek in Hfull. specialize (Hfull eq_refl).
      unfold in_bounds. simpl. lia.
  - eapply (char_success h chars (Some f)); eauto.
    + apply (Hcls chars f). apply rtc_refl.
    + by exists (S k).
Qed.

Lemma reachable_classes_child h p q :
  reachable_classes_need_a_character h p -> child h p q ->
  reachable_classes_need_a_character h q.
Proof.
  intros Hp Hpq chars f Hq. apply (Hp chars f). eapply rtc_l; eauto.
Qed.



End Bounds.



(** ** Parsers without loops and references always end *)

Lemma settles_bind {A B : Type} (m : Result A) (k : A -> Result B) :
  settles m -> (forall a, settles (k a)) -> settles (m ≫= k).
Proof.
  intros [->|[a ->]] Hk; [by left|]. rewrite bind_Return. apply Hk.
Qed.

Lemma settles_Return {A : Type} (a : A) : settles (Return a).
Proof. right. by exists a. Qed.

Lemma formatted_settles f x st :
  (forall y, exists w, f y = Return w) -> settles (formatted f x st).
Proof.
  intros Hf. destruct (Hf x) as [w Hw].
  rewrite (formatted_Return _ _ _ _ Hw). apply settles_Return.
Qed.

Lemma reduce_settles call ps :
  Forall (fun q => forall c, settles (call q c)) ps ->
  forall acc, settles (reduce (seq_step call) ps acc).
Proof.
  induction 1 as [|q ps Hq _ IH]; intros acc; simpl.
  - apply settles_Return.
  - apply settles_bind; [|done]. unfold seq_step.
    destruct (negb (success acc)); [apply settles_Return|].
    apply settles_bind; [done|].
    intros [[v st]|]; apply settles_Return.
Qed.

Lemma alt_for_settles call ps f c :
  (forall y, exists w, f y = Return w) ->
  Forall (fun q => forall c, settles (call q c)) ps ->
  settles (alt_for call ps f c).
Proof.
  intros Hf. induction 1 as [|q ps Hq _ IH]; simpl.
  - apply settles_Return.
  - apply settles_bind; [done|].
    intros [[v st]|]; [by apply formatted_settles|done].
Qed.

Lemma height_children ps k :
  (list_max (map height ps) <= k)%nat ->
  Forall (fun q => (height q <= k)%nat) ps.
Proof.
  intros Hmax. apply list_max_le in Hmax.
  by apply Forall_map in Hmax.
Qed.

Section LoopFree.

Context {host : Host}.

Lemma loop_free_settles h k :
  forall p c, loop_free p = true -> formatters_return p ->
    (height p <= k)%nat ->
    settles (invoke k h p c).
Proof.
  induction k as [|k IH]; intros p c Hlf Hfr Hh.
  - destruct p; simpl in Hh; lia.
  - destruct p as [g|s f|chars f|ps f|q n f|q f|ps f|ctx name];
      try done; simpl in Hlf, Hh; inversion Hfr as
        [|? ? Hf|? ? Hf|? ? Hf Hps|? ? ? Hf Hq|? ? Hf Hq|? ? Hf Hps|]; subst.
    + simpl. destruct (String.eqb _ _);
        [by apply formatted_settles|apply settles_Return].
    + simpl. destruct (RegExp _) as [regex|]; [|by left].
      destruct (regex _);
        [by apply formatted_settles|apply settles_Return].
    + cbn [invoke]. apply settles_bind.
      * apply reduce_settles. apply Forall_forall. intros q Hq c1.
        apply IH.
        -- rewrite forallb_forall in Hlf. apply Hlf.
           by apply list_elem_of_In.
        -- rewrite Forall_forall in Hps. by apply Hps.
        -- pose proof (height_children ps k ltac:(lia)) as Hall.
           rewrite Forall_forall in Hall. by apply Hall.
      * intros res. destruct (success res);
          [by apply formatted_settles|apply settles_Return].
    + cbn [invoke]. apply settles_bind; [apply IH; [done|done|lia]|].
      intros [[v st]|]; by apply formatted_settles.
    + cbn [invoke]. apply alt_for_settles; [done|]. apply Forall_forall.
      intros q Hq c1. apply IH.
      * rewrite forallb_forall in Hlf. apply Hlf.
        by apply list_elem_of_In.
      * rewrite Forall_forall in Hps. by apply Hps.
      * pose proof (height_children ps k ltac:(lia)) as Hall.
        rewrite Forall_forall in Hall. by apply Hall.
Qed.

(** A parser made of [str], [char], [seq], [opt] and [alt] only, all of
    whose formatters return, ends on every state, within as many nested
    calls as its nesting depth: it returns a success or [null], or throws
    the [SyntaxError] of a class that is no regular expression. *)
Theorem loop_free_parsers_end h p c :
  loop_free p = true ->
  formatters_return p ->
  invoke (height p) h p c = Throw SyntaxError
  \/ exists r, invoke (height p) h p c = Return r.
Proof.
  intros Hlf Hfr. by apply loop_free_settles.
Qed.

End LoopFree.

(** ** Repetitions that end *)

Section RepEnds.

Context {host : Host}.

Lemma rep_ends_with_loop h p n f c :
  always_ends f ->
  (exists k, forall ms, rep_while (invoke k h) k p c ms <> OutOfFuel) ->
  terminates h (rep p n f) c.
Proof.
  intros Hf [k Hk]. exists (S k). simpl. specialize (Hk []).
  destruct (rep_while _ _ _ _ _) as [|e|[ms st]]; simpl; try done.
  destruct (_ >=? _); [by apply formatted_ends|done].
Qed.

Lemma char_ends h chars f c :
  always_ends f -> terminates h (char chars f) c.
Proof.
  intros Hf. exists 1%nat. simpl.
  destruct (RegExp _) as [regex|]; [|done].
  destruct (regex _); [by apply formatted_ends|done].
Qed.

End RepEnds.


(** ** What [rep] leaves behind *)

Section Greedy.

Context {host : Host}.

Lemma rep_while_stops_at_failure call k p :
  forall c ms ms' c',
    rep_while call k p c ms = Return (ms', c') ->
    call p c' = Return None.
Proof.
  induction k as [|k IH]; intros c ms ms' c'; [done|]. cbn [rep_while].
  destruct (call p c) as [| |[[v c1]|]] eqn:Hc; try done.
  - rewrite bind_Return. apply IH.
  - rewrite bind_Return. by intros [= _ <-].
Qed.

Lemma rep_stops_at_failure h p n f c v c' :
  returns h (rep p n f) c (Some (v, c')) -> returns h p c' None.
Proof.
  intros [[|k] Hk]; [done|]. rewrite invoke_rep in Hk.
  destruct (rep_while _ _ _ _ _) as [| |[ms st]] eqn:Hrep; try done.
  rewrite bind_Return in Hk. cbn [fst snd] in Hk.
  destruct (_ >=? _); [|done]. apply formatted_returns in Hk as [_ ->].
  exists k. by apply rep_while_stops_at_failure in Hrep.
Qed.



(** [rep] ends around a literal that is not empty, and around a [char]
    whose regular expression does not accept the empty chunk: from every
    state within its string the loop takes at least one character per
    round.  (The formatters have to end too.) *)
Theorem rep_of_consuming_leaf_terminates h n g c :
  in_bounds c ->
  always_ends g ->
  (forall s f, s <> "" -> always_ends f ->
     terminates h (rep (str s f) n g) c)
  /\ (forall chars f, class_needs_a_character chars -> always_ends f ->
        terminates h (rep (char chars f) n g) c).
Proof.
  intros Hc Hg. split.
  - intros s f Hs Hf. apply rep_ends_with_loop; [done|].
    apply (rep_while_ends h (str s f)) with
      (m := Z.to_nat (str_length (string_ c) - offset c)); [| |done|lia].
    + intros c1 _. by apply str_ends.
    + intros c1 v c2. by apply str_advances.
  - intros chars f Hcls Hf. apply rep_ends_with_loop; [done|].
    apply (rep_while_ends h (char chars f)) with
      (m := Z.to_nat (str_length (string_ c) - offset c)); [| |done|lia].
    + intros c1 _. by apply char_ends.
    + intros c1 v c2 Hc1 Hrun.
      destruct (char_success h chars f c1 v c2 Hcls Hc1 Hrun)
        as (_ & _ & -> & Hin).
      split; [simpl; lia|done].
Qed.

End Greedy.


(** ** Examples from the test suite and the README *)

#[local] Existing Instance class_host.

Example parse_hello :
  parse 5 ∅ (str "hello" None) "hello"
  = Return (VObj [("str", VStr "hello")]).
Proof. reflexivity. Qed.

Example parse_hello_world :
  parse 5 ∅ (str "hello" None) "world" = Return VNull.
Proof. reflexivity. Qed.

Example parse_addition :
  parse 5 ∅
    (seq [char "0-9" None; str "+" None; char "0-9" None] None) "2+5"
  = Return (VObj [("seq", VArr [VObj [("char", VStr "2")];
                                VObj [("str", VStr "+")];
                                VObj [("char", VStr "5")]])]).
Proof. reflexivity. Qed.

Example parse_numbers_2017 :
  parse 9 ∅ (rep (char "0-9" None) 2 None) "2017"
  = Return (VObj [("rep", VArr [VObj [("char", VStr "2")];
                                VObj [("char", VStr "0")];
                                VObj [("char", VStr "1")];
                                VObj [("char", VStr "7")]])]).
Proof. reflexivity. Qed.

Example parse_numbers_short :
  parse 9 ∅ (rep (char "0-9" None) 2 None) "1" = Return VNull.
Proof. reflexivity. Qed.

Example parse_maybeplus_empty :
  parse 9 ∅ (opt (str "+" None) None) ""
  = Return (VObj [("opt", VNull)]).
Proof. reflexivity. Qed.

Example parse_maybeplus_asdf :
  parse 9 ∅ (opt (str "+" None) None) "asdf" = Return VNull.
Proof. reflexivity. Qed.

Example parse_blue :
  parse 9 ∅ (alt [str "red" None; str "blue" None] None) "blue"
  = Return (VObj [("alt", VObj [("str", VStr "blue")])]).
Proof. reflexivity. Qed.

Example parse_number_ref :
  parse 9 {[ 1%positive := {[ "number" := char "0-9" None ]} ]}
    (ref 1%positive "number") "4"
  = Return (VObj [("char", VStr "4")]).
Proof. vm_compute. reflexivity. Qed.

Example parse_readme_2017 :
  parse 9 ∅ number_grammar "2017"
  = Return (VObj [("alt", VObj [("seq",
      VArr [VObj [("char", VStr "2")];
            VObj [("rep", VArr [VObj [("char", VStr "0")];
                                VObj [("char", VStr "1")];
                                VObj [("char", VStr "7")]])]])])]).
Proof. reflexivity. Qed.

Example parse_readme_000 :
  parse 9 ∅ number_grammar "000" = Return VNull.
Proof. reflexivity. Qed.

Example parse_readme_123Hello :
  parse 19 ∅ number_grammar "123Hello!" = Return VNull.
Proof. reflexivity. Qed.

(** ** The properties at concrete parsers and inputs *)

(** C1 at [str('hello')]: the whole of ['hello'] is a match, the prefix of
    ['hello world!'] is not. *)
Lemma C1_parse_witness :
  parse 5 ∅ (str "hello" None) "hello" = Return (tagged "str" (VStr "hello"))
  /\ parse 5 ∅ (str "hello" None) "world" = Return VNull
  /\ parse 5 ∅ (str "hello" None) "hello world!" = Return VNull.
Proof.
  pose proof (C1_parse_accepts_only_complete_matches
                5 ∅ (str "hello" None)) as H.
  split; [|split].
  - apply (proj1 (H "hello") _ (mkParseState "hello" 5)); reflexivity.
  - apply (proj1 (proj2 (H "world"))); reflexivity.
  - apply (proj1 (proj2 (proj2 (H "hello world!")))
             (tagged "str" (VStr "hello")) (mkParseState "hello world!" 5));
      reflexivity.
Defined.

(** C2 at [rep(char('0-9'), 1)] on ['42x']: the run is ['4'], ['2']. *)
Lemma C2_rep_witness :
  let c := mkParseState "42x" 0 in
  let c' := mkParseState "42x" 2 in
  let vs := [tagged "char" (VStr "4"); tagged "char" (VStr "2")] in
  greedy_run ∅ (char "0-9" None) c vs c'
  /\ exists k, forall k', (k <= k')%nat ->
       invoke k' ∅ (rep (char "0-9" None) 1 None) c
       = rep_answer 1 None vs c'.
Proof.
  intros c c' vs.
  assert (Hrun : greedy_run ∅ (char "0-9" None) c vs c').
  { apply greedy_more with (c1 := mkParseState "42x" 1); [by exists 1%nat|].
    apply greedy_more with (c1 := c'); [by exists 1%nat|].
    apply greedy_stop. by exists 1%nat. }
  split; [exact Hrun|].
  exact (proj1 (C2_rep_greedy_run ∅ (char "0-9" None) 1 None c vs c' Hrun)).
Defined.



(** C4 at [opt(str('+'))]. *)
Lemma C4_opt_witness :
  invoke 2 ∅ (opt (str "+" None) None) (mkParseState "asdf" 0)
  = Return (Some (tagged "opt" VNull, mkParseState "asdf" 0))
  /\ invoke 2 ∅ (opt (str "+" None) None) (mkParseState "+1" 0)
     = Return (Some (tagged "opt" (tagged "str" (VStr "+")),
                     mkParseState "+1" 1)).
Proof.
  pose proof (C4_opt_never_fails ∅ (str "+" None) None) as H. split.
  - apply (proj2 (proj2 (H (mkParseState "asdf" 0))) 1%nat). reflexivity.
  - apply (proj1 (proj2 (H (mkParseState "+1" 0))) 1%nat). reflexivity.
Defined.

(** C5 at [alt([str('red'), str('blue')])] and at two parsers that both
    succeed. *)
Lemma C5_alt_witness :
  invoke 2 ∅ (alt [str "red" None; str "blue" None] None)
    (mkParseState "blue" 0)
  = Return (Some (tagged "alt" (tagged "str" (VStr "blue")),
                  mkParseState "blue" 4))
  /\ invoke 2 ∅ (alt [str "b" None; str "blue" None] None)
       (mkParseState "blue" 0)
     = Return (Some (tagged "alt" (tagged "str" (VStr "b")),
                     mkParseState "blue" 1)).
Proof.
  pose proof (C5_alt_first_success ∅ None (mkParseState "blue" 0) 1) as H.
  split.
  - apply (proj1 H [str "red" None] (str "blue" None) []).
    + by repeat constructor.
    + reflexivity.
  - apply (proj1 (proj2 H)). reflexivity.
Defined.

(** The registry of the tests with the grammar of the README in it. *)
Lemma number_registry_host_free :
  store_host_free {[ 1%positive := {[ "number" := number_grammar ]} ]}.
Proof.
  intros ctx name q Hq. unfold get_prop in Hq.
  apply bind_Some in Hq as (obj & Hobj & Hq).
  apply lookup_singleton_Some in Hobj as [<- <-].
  apply lookup_singleton_Some in Hq as [<- <-].
  reflexivity.
Qed.


(** C8 with the binding made after the reference: the context object is
    empty when [ref] is applied, [number] is assigned afterwards. *)
Lemma C8_ref_witness :
  let h0 : Store := {[ 1%positive := ∅ ]} in
  let p := ref 1%positive "number" in
  let h := set_prop h0 1%positive "number" (char "0-9" None) in
  get_prop h0 1%positive "number" = None
  /\ get_prop h 1%positive "number" = Some (char "0-9" None)
  /\ invoke 2 h p (mkParseState "4" 0)
     = invoke 1 h (char "0-9" None) (mkParseState "4" 0).
Proof.
  intros h0 p h.
  assert (Hget : get_prop h 1%positive "number" = Some (char "0-9" None))
    by apply get_prop_set_prop.
  split; [by vm_compute|]. split; [exact Hget|].
  exact (proj1 (C8_ref_delegates h 1%positive "number" _
                  (mkParseState "4" 0) Hget) 1%nat).
Defined.

(** C9 at a name the context object does not have. *)
Lemma C9_ref_witness :
  let h : Store := {[ 1%positive := {[ "number" := char "0-9" None ]} ]} in
  get_prop h 1%positive "digit" = None
  /\ invoke 1 h (ref 1%positive "digit") (mkParseState "4" 0)
     = Throw TypeError.
Proof.
  intros h.
  assert (Hget : get_prop h 1%positive "digit" = None) by (by vm_compute).
  split; [exact Hget|].
  exact (proj1 (C9_ref_unbound_throws h 1%positive "digit"
                  (mkParseState "4" 0) Hget eq_refl) 0%nat).
Defined.

(** C9 as it is written fails at a name that the context object inherits:
    [ref({}, 'hasOwnProperty')] is unbound in the context object, and
    calling it returns [false], a failure: it does not throw, and [parse]
    answers [null]. *)
Lemma C9_ref_inherited_member_fails :
  let h : Store := {[ 1%positive := ∅ ]} in
  let p := ref 1%positive "hasOwnProperty" in
  get_prop h 1%positive "hasOwnProperty" = None
  /\ (forall k, invoke (S k) h p (mkParseState "x" 0) = Return None)
  /\ (forall k e, invoke k h p (mkParseState "x" 0) <> Throw e)
  /\ parse 1 h p "x" = Return VNull.
Proof.
  intros h p. split; [by vm_compute|]. split; [|split].
  - intros k. by vm_compute.
  - intros [|k] e; [done|].
    assert (Hk : invoke (S k) h p (mkParseState "x" 0) = Return None)
      by (by vm_compute).
    by rewrite Hk.
  - by vm_compute.
Qed.

(** C7 as it is written fails at the formatter of the test of [opt],
    [function (v) { return '#' + v.opt && v.opt.str }], on the empty
    string: [opt(str('+'))] succeeds there with [{opt: null}], and with
    the formatter the call throws a [TypeError] and returns nothing. *)
Lemma C7_formatter_that_throws :
  let c := mkParseState "" 0 in
  let p := opt (str "+" None) None in
  let p' := opt (str "+" None) (Some maybeplus_format) in
  (forall k, invoke (S (S k)) ∅ p c = Return (Some (tagged "opt" VNull, c)))
  /\ (forall k, invoke (S (S k)) ∅ p' c = Throw TypeError)
  /\ (forall k r, invoke k ∅ p' c <> Return r).
Proof.
  intros c p p'.
  assert (Hp' : forall k, invoke (S (S k)) ∅ p' c = Throw TypeError)
    by (intros k; by vm_compute).
  split; [intros k; by vm_compute|]. split; [exact Hp'|].
  intros [|[|k]] r; [done|done|]. by rewrite Hp'.
Qed.

(** ** The further properties at concrete parsers and inputs *)

Lemma class_host_needs_a_character chars :
  class_needs_a_character chars.
Proof. by intros regex [= <-]. Qed.


Lemma peek_is_clipped_witness :
  peek (mkParseState "hello" 3) 5 = "lo"
  /\ str_length (peek (mkParseState "hello" 3) 5) <= 5.
Proof.
  split; [reflexivity|].
  apply (proj1 (peek_is_clipped (mkParseState "hello" 3) 5 ltac:(lia))).
Defined.

Lemma peek_then_read_witness :
  peek (mkParseState "hello" 1) (2 + 2)
  = peek (mkParseState "hello" 1) 2
    +:+ peek (read (mkParseState "hello" 1) 2) 2.
Proof.
  apply (peek_then_read (mkParseState "hello" 1) 2 2); simpl; lia.
Defined.

Lemma peek_empty_iff_complete_witness :
  peek (mkParseState "hello" 5) 1 = ""
  <-> isComplete (mkParseState "hello" 5) = true.
Proof.
  apply (peek_empty_iff_complete (mkParseState "hello" 5) 1);
    [unfold str_length; simpl; lia|lia].
Defined.

Lemma str_matches_iff_witness :
  invoke 1 ∅ (str "+" None) (mkParseState "2+5" 1)
  = Return (Some (tagged "str" (VStr "+"), mkParseState "2+5" 2)).
Proof.
  apply (proj1 (str_matches_iff ∅ "+" None (mkParseState "2+5" 1)
                  ltac:(unfold str_length; simpl; lia))).
  by exists "2", "5".
Defined.

Lemma seq_str_str_witness :
  (exists v, invoke 2 ∅ (seq [str "he" None; str "llo" None] None)
               (mkParseState "hello" 0)
             = Return (Some (v, mkParseState "hello" 5)))
  <-> (exists v, invoke 1 ∅ (str ("he" +:+ "llo") None)
                   (mkParseState "hello" 0)
                 = Return (Some (v, mkParseState "hello" 5))).
Proof.
  apply (seq_str_str 0 ∅ "he" "llo" None None None None
           (mkParseState "hello" 0) (mkParseState "hello" 5));
    [simpl; lia|apply no_formatter_returns..].
Defined.

Lemma seq_fails_fast_witness :
  returns ∅ (seq ([char "0-9" None; str "+" None]
                  ++ char "0-9" None :: [ref 1%positive "missing"]) None)
    (mkParseState "2+z" 0) None.
Proof.
  apply (seq_fails_fast ∅ [char "0-9" None; str "+" None]
           (char "0-9" None) [ref 1%positive "missing"] None
           (mkParseState "2+z" 0)
           [tagged "char" (VStr "2"); tagged "str" (VStr "+")]
           (mkParseState "2+z" 2)).
  - apply seq_run_cons with (c1 := mkParseState "2+z" 1);
      [by exists 1%nat|].
    apply seq_run_cons with (c1 := mkParseState "2+z" 2);
      [by exists 1%nat|].
    apply seq_run_nil.
  - by exists 1%nat.
Defined.

Lemma rep_without_minimum_witness :
  invoke 2 ∅ (rep (char "0-9" None) 0 None) (mkParseState "abc" 0)
  = Return (Some (tagged "rep" (VArr []), mkParseState "abc" 0))
  /\ exists v c',
       Some (tagged "rep" (VArr []), mkParseState "abc" 0) = Some (v, c').
Proof.
  split; [reflexivity|].
  apply (rep_without_minimum_never_fails 2 ∅ (char "0-9" None) 0 None
           (mkParseState "abc" 0)); [lia|reflexivity].
Defined.


Lemma char_takes_one_character_witness :
  str_length (peek (mkParseState "2017" 1) 1) = 1
  /\ or_id None (tagged "char" (VStr (peek (mkParseState "2017" 1) 1)))
     = Return (tagged "char" (VStr "0"))
  /\ mkParseState "2017" 2 = read (mkParseState "2017" 1) 1
  /\ in_bounds (mkParseState "2017" 2).
Proof.
  apply (char_takes_one_character ∅ "0-9" None (mkParseState "2017" 1)).
  - apply class_host_needs_a_character.
  - unfold in_bounds, str_length. simpl. lia.
  - by exists 1%nat.
Defined.



Lemma loop_free_parsers_end_witness :
  let p := seq [char "0-9" None; opt (str "+" None) None] None in
  invoke (height p) ∅ p (mkParseState "2+" 0) = Throw SyntaxError
  \/ exists r, invoke (height p) ∅ p (mkParseState "2+" 0) = Return r.
Proof.
  intros p. apply (loop_free_parsers_end ∅ p); [reflexivity|].
  repeat constructor; apply no_formatter_returns.
Defined.



Lemma rep_of_consuming_leaf_witness :
  terminates ∅ (rep (str "ab" None) 0 None) (mkParseState "abab" 0)
  /\ terminates ∅ (rep (char "a-b" None) 0 None) (mkParseState "abab" 0).
Proof.
  destruct (rep_of_consuming_leaf_terminates ∅ 0 None
              (mkParseState "abab" 0)) as [Hstr Hchar].
  - unfold in_bounds, str_length. simpl. lia.
  - apply no_formatter_ends.
  - split.
    + apply Hstr; [done|apply no_formatter_ends].
    + apply Hchar;
        [apply class_host_needs_a_character|apply no_formatter_ends].
Defined.

